(** * The encode half of the codec library: a shallow embedding of
    [src/codec/encode.go] and the properties its specification states.

    The file follows the source from the leaves up: the buffer-backed byte
    sink ([bytesEncWriter]), the timestamp payload ([encodeTime]), the
    writer-backed byte sink ([ioEncWriter]), the extension registry
    ([encHandle]) and the value-traversal engine ([Encoder.encode],
    [Encoder.encodeValue], [Encoder.encStruct]). *)

From Stdlib Require Import ZArith List Lia.
From stdpp Require Import gmap strings list fin_maps.

(** A Go [byte] is kept as its value in [Z]; the conversion [byte(v)] of a
    wider unsigned integer keeps the low eight bits. *)
Definition byte := Z.

Definition byte_of (v : Z) : byte := Z.land v 255.

(* ===================================================================== *)
(** * The buffer-backed byte sink                                         *)
(* ===================================================================== *)

Module ByteSink.
Local Open Scope Z_scope.

(** A Go [[]byte]: the backing array counted from the slice's first
    element (so [cap] is its length) and the visible length [len].
    Lengths, capacities and the cursor are Go [int]s; they count the bytes
    of one buffer held in memory, so they are kept as unbounded [Z]. *)
Record slice := { arr : list byte; len : Z }.

Definition cap (s : slice) : Z := Z.of_nat (length (arr s)).

(** Runtime panics of the slice primitives are [None]. *)

(** [make([]byte, n)]: [n] zero bytes, capacity [n]. *)
Definition make (n : Z) : option slice :=
  if n <? 0 then None
  else Some {| arr := replicate (Z.to_nat n) 0; len := n |}.

(** [s[:hi]]: legal up to the capacity. *)
Definition slice_to (s : slice) (hi : Z) : option slice :=
  if (0 <=? hi) && (hi <=? cap s) then Some {| arr := arr s; len := hi |}
  else None.

(** [copy(dst, src)]: the first [min(len(dst), len(src))] bytes. *)
Definition copy (dst src : slice) : slice :=
  let n := Z.to_nat (Z.min (len dst) (len src)) in
  {| arr := take n (arr src) ++ drop n (arr dst); len := len dst |}.

(** [copy(dst[lo:], src)] for a byte sequence [src]. *)
Definition copy_at (dst : slice) (lo : Z) (src : list byte) : option slice :=
  if (0 <=? lo) && (lo <=? len dst) then
    let n := Z.to_nat (Z.min (len dst - lo) (Z.of_nat (length src))) in
    Some {| arr := take (Z.to_nat lo) (arr dst) ++ take n src
                   ++ drop (Z.to_nat lo + n) (arr dst);
            len := len dst |}
  else None.

(** [s[i] = v]: bounds-checked against the visible length. *)
Definition store (s : slice) (i : Z) (v : byte) : option slice :=
  if (0 <=? i) && (i <? len s)
  then Some {| arr := <[Z.to_nat i := v]> (arr s); len := len s |}
  else None.

(** [bytesEncWriter]: the buffer [b], the cursor [c], and the caller's
    output slot [out] that [flush] overwrites. *)
Record bytesEncWriter := { b : slice; c : Z; out : slice }.

Definition set_b (z : bytesEncWriter) (s : slice) : bytesEncWriter :=
  {| b := s; c := c z; out := out z |}.

(** [func (z *bytesEncWriter) grow(n int) (oldcursor int)] *)
Definition grow (n : Z) (z : bytesEncWriter) : option (Z * bytesEncWriter) :=
  let oldcursor := c z in
  let c' := oldcursor + n in
  if c' >? cap (b z) then
    bs ← make (2 * cap (b z) + n);
    pre ← slice_to (b z) oldcursor;
    Some (oldcursor, {| b := copy bs pre; c := c'; out := out z |})
  else if c' >? len (b z) then
    b' ← slice_to (b z) (cap (b z));
    Some (oldcursor, {| b := b'; c := c'; out := out z |})
  else Some (oldcursor, {| b := b z; c := c'; out := out z |}).

(** Stores [vs] at [z.b[c0]], [z.b[c0+1]], ... one indexed assignment each. *)
Fixpoint stores (vs : list byte) (c0 : Z) (z : bytesEncWriter)
  : option bytesEncWriter :=
  match vs with
  | [] => Some z
  | v :: vs' => b' ← store (b z) c0 v; stores vs' (c0 + 1) (set_b z b')
  end.

Definition writeUint16 (v : Z) (z : bytesEncWriter) : option bytesEncWriter :=
  '(c0, z1) ← grow 2 z;
  stores [byte_of (Z.shiftr v 8); byte_of v] c0 z1.

Definition writeUint32 (v : Z) (z : bytesEncWriter) : option bytesEncWriter :=
  '(c0, z1) ← grow 4 z;
  stores [byte_of (Z.shiftr v 24); byte_of (Z.shiftr v 16);
          byte_of (Z.shiftr v 8); byte_of v] c0 z1.

Definition writeUint64 (v : Z) (z : bytesEncWriter) : option bytesEncWriter :=
  '(c0, z1) ← grow 8 z;
  stores [byte_of (Z.shiftr v 56); byte_of (Z.shiftr v 48);
          byte_of (Z.shiftr v 40); byte_of (Z.shiftr v 32);
          byte_of (Z.shiftr v 24); byte_of (Z.shiftr v 16);
          byte_of (Z.shiftr v 8); byte_of v] c0 z1.

(** [writeb] and [writestr] have the same body; a Go string is its bytes. *)
Definition writeb (s : list byte) (z : bytesEncWriter) : option bytesEncWriter :=
  '(c0, z1) ← grow (Z.of_nat (length s)) z;
  b' ← copy_at (b z1) c0 s;
  Some (set_b z1 b').

Definition writestr (s : list byte) (z : bytesEncWriter) : option bytesEncWriter :=
  '(c0, z1) ← grow (Z.of_nat (length s)) z;
  b' ← copy_at (b z1) c0 s;
  Some (set_b z1 b').

Definition writen1 (b1 : byte) (z : bytesEncWriter) : option bytesEncWriter :=
  '(c0, z1) ← grow 1 z; stores [b1] c0 z1.

Definition writen2 (b1 b2 : byte) (z : bytesEncWriter) : option bytesEncWriter :=
  '(c0, z1) ← grow 2 z; stores [b1; b2] c0 z1.

Definition writen3 (b1 b2 b3 : byte) (z : bytesEncWriter)
  : option bytesEncWriter :=
  '(c0, z1) ← grow 3 z; stores [b1; b2; b3] c0 z1.

Definition writen4 (b1 b2 b3 b4 : byte) (z : bytesEncWriter)
  : option bytesEncWriter :=
  '(c0, z1) ← grow 4 z; stores [b1; b2; b3; b4] c0 z1.

(** [flush]: [*(z.out) = z.b[:z.c]]. *)
Definition flush (z : bytesEncWriter) : option bytesEncWriter :=
  o ← slice_to (b z) (c z);
  Some {| b := b z; c := c z; out := o |}.

(** [defEncByteBufSize = 1 << 6] *)
Definition defEncByteBufSize : Z := Z.shiftl 1 6.

(** The sink [NewEncoderBytes] builds: the caller's slice ([None] is a nil
    slice) or a fresh 64-byte buffer, cursor at 0. *)
Definition newBytesEncWriter (o : option slice) : option bytesEncWriter :=
  match o with
  | Some s => Some {| b := s; c := 0; out := s |}
  | None => s ← make defEncByteBufSize;
            Some {| b := s; c := 0; out := {| arr := []; len := 0 |} |}
  end.

(** The calls of the [encWriter] interface, and a session as a sequence of
    them. *)
Inductive call :=
| WriteUint16 (v : Z)
| WriteUint32 (v : Z)
| WriteUint64 (v : Z)
| Writeb (s : list byte)
| Writestr (s : list byte)
| Writen1 (b1 : byte)
| Writen2 (b1 b2 : byte)
| Writen3 (b1 b2 b3 : byte)
| Writen4 (b1 b2 b3 b4 : byte)
| Flush.

Definition step (k : call) (z : bytesEncWriter) : option bytesEncWriter :=
  match k with
  | WriteUint16 v => writeUint16 v z
  | WriteUint32 v => writeUint32 v z
  | WriteUint64 v => writeUint64 v z
  | Writeb s => writeb s z
  | Writestr s => writestr s z
  | Writen1 b1 => writen1 b1 z
  | Writen2 b1 b2 => writen2 b1 b2 z
  | Writen3 b1 b2 b3 => writen3 b1 b2 b3 z
  | Writen4 b1 b2 b3 b4 => writen4 b1 b2 b3 b4 z
  | Flush => flush z
  end.

Fixpoint run (ks : list call) (z : bytesEncWriter) : option bytesEncWriter :=
  match ks with
  | [] => Some z
  | k :: ks' => z' ← step k z; run ks' z'
  end.

(** The sink's invariant: the cursor and the visible length lie within the
    capacity. *)
Definition sink_ok (z : bytesEncWriter) : Prop :=
  0 <= c z <= cap (b z) /\ 0 <= len (b z) <= cap (b z).

(** The bytes each call appends: integers big-endian, byte sequences as
    they are. *)
Definition bytes_of_call (k : call) : list byte :=
  match k with
  | WriteUint16 v => [byte_of (Z.shiftr v 8); byte_of v]
  | WriteUint32 v =>
      [byte_of (Z.shiftr v 24); byte_of (Z.shiftr v 16);
       byte_of (Z.shiftr v 8); byte_of v]
  | WriteUint64 v =>
      [byte_of (Z.shiftr v 56); byte_of (Z.shiftr v 48);
       byte_of (Z.shiftr v 40); byte_of (Z.shiftr v 32);
       byte_of (Z.shiftr v 24); byte_of (Z.shiftr v 16);
       byte_of (Z.shiftr v 8); byte_of v]
  | Writeb s | Writestr s => s
  | Writen1 b1 => [b1]
  | Writen2 b1 b2 => [b1; b2]
  | Writen3 b1 b2 b3 => [b1; b2; b3]
  | Writen4 b1 b2 b3 b4 => [b1; b2; b3; b4]
  | Flush => []
  end.

(** The live prefix: the first [c] bytes of the buffer. *)
Definition live (z : bytesEncWriter) : list byte :=
  take (Z.to_nat (c z)) (arr (b z)).

(** ** Properties of the sink *)

Lemma cap_nonneg (s : slice) : 0 <= cap s.
Proof. unfold cap. lia. Qed.

Lemma cap_copy (dst src : slice) :
  0 <= len src <= cap src -> len src <= len dst -> len dst = cap dst ->
  cap (copy dst src) = cap dst.
Proof.
  intros Hs Hd Hfull. unfold cap, copy in *. cbn.
  rewrite length_app, length_take, length_drop. lia.
Qed.

Lemma take_copy (dst src : slice) :
  0 <= len src <= cap src -> len src <= len dst ->
  take (Z.to_nat (len src)) (arr (copy dst src))
  = take (Z.to_nat (len src)) (arr src).
Proof.
  intros Hs Hd. unfold cap, copy in *. cbn.
  replace (Z.min (len dst) (len src)) with (len src) by lia.
  rewrite take_app_le by (rewrite length_take; lia).
  rewrite take_take. f_equal. lia.
Qed.

(** What every call of [grow] guarantees, whichever branch it takes. *)
Lemma grow_ok (n : Z) (z : bytesEncWriter) :
  sink_ok z -> 0 <= n ->
  exists z', grow n z = Some (c z, z')
    /\ c z' = c z + n
    /\ sink_ok z'
    /\ cap (b z) <= cap (b z')
    /\ c z' <= len (b z')
    /\ out z' = out z.
Proof.
  intros [[Hc0 Hc] [Hl0 Hl]] Hn. unfold grow.
  destruct (Z.gtb_spec (c z + n) (cap (b z))) as [Hgt | Hle].
  - unfold make, slice_to.
    destruct (Z.ltb_spec (2 * cap (b z) + n) 0) as [? | _]; [lia |].
    replace ((0 <=? c z) && (c z <=? cap (b z))) with true
      by (symmetry; apply andb_true_iff; split; lia).
    cbn. eexists. split; [reflexivity |].
    set (bs := {| arr := replicate _ 0; len := 2 * cap (b z) + n |}).
    set (pre := {| arr := arr (b z); len := c z |}).
    assert (Hbs : len bs = cap bs).
    { unfold bs, cap. cbn. rewrite length_replicate. lia. }
    assert (Hpre : 0 <= len pre <= cap pre)
      by (cbn; change (cap pre) with (cap (b z)); lia).
    assert (Hfit : len pre <= len bs) by (cbn; lia).
    pose proof (cap_copy bs pre Hpre Hfit Hbs) as Hcap.
    cbn. unfold sink_ok. cbn. rewrite Hcap, <- Hbs. cbn.
    repeat split; lia.
  - destruct (Z.gtb_spec (c z + n) (len (b z))) as [Hgt | Hle'].
    + unfold slice_to.
      replace ((0 <=? cap (b z)) && (cap (b z) <=? cap (b z))) with true
        by (symmetry; apply andb_true_iff; split; lia).
      cbn. eexists. split; [reflexivity |].
      unfold sink_ok, cap in *. cbn. repeat split; lia.
    + eexists. split; [reflexivity |].
      unfold sink_ok, cap in *. cbn. repeat split; lia.
Qed.

(** C4. The growth law: when the new logical length [c + n] exceeds the
    capacity [C], [grow n] allocates a buffer of capacity exactly
    [2C + n], carries the live prefix (the first [c] bytes) over, returns
    the old cursor and leaves the cursor at [c + n]. *)
Theorem grow_reallocates (n : Z) (z : bytesEncWriter) :
  0 <= c z <= cap (b z) ->
  c z + n > cap (b z) ->
  exists z', grow n z = Some (c z, z')
    /\ cap (b z') = 2 * cap (b z) + n
    /\ len (b z') = 2 * cap (b z) + n
    /\ take (Z.to_nat (c z)) (arr (b z')) = take (Z.to_nat (c z)) (arr (b z))
    /\ c z' = c z + n.
Proof.
  intros [Hc0 Hc] Hgt. unfold grow.
  destruct (Z.gtb_spec (c z + n) (cap (b z))) as [_ | ?]; [| lia].
  unfold make, slice_to.
  destruct (Z.ltb_spec (2 * cap (b z) + n) 0) as [? | _]; [lia |].
  replace ((0 <=? c z) && (c z <=? cap (b z))) with true
    by (symmetry; apply andb_true_iff; split; lia).
  cbn. eexists. split; [reflexivity |].
  set (bs := {| arr := replicate _ 0; len := 2 * cap (b z) + n |}).
  set (pre := {| arr := arr (b z); len := c z |}).
  assert (Hbs : len bs = cap bs).
  { unfold bs, cap. cbn. rewrite length_replicate. lia. }
  assert (Hpre : 0 <= len pre <= cap pre) by (cbn; change (cap pre) with (cap (b z)); lia).
  assert (Hfit : len pre <= len bs) by (cbn; lia).
  cbn. repeat split.
  - rewrite (cap_copy bs pre Hpre Hfit Hbs), <- Hbs. reflexivity.
  - exact (take_copy bs pre Hpre Hfit).
Qed.

Lemma grow_reallocates_witness :
  let z := {| b := {| arr := [1; 2; 3; 4]; len := 2 |}; c := 2;
              out := {| arr := []; len := 0 |} |} in
  exists z', grow 3 z = Some (2, z')
    /\ cap (b z') = 11
    /\ len (b z') = 11
    /\ take 2 (arr (b z')) = [1; 2]
    /\ c z' = 5.
Proof.
  intros z. apply (grow_reallocates 3 z); subst z; unfold cap; cbn; lia.
Defined.

(** Indexed stores into the window [grow] has just opened stay in bounds
    and move neither the cursor nor the capacity. *)
Lemma stores_ok (vs : list byte) : forall (c0 : Z) (z : bytesEncWriter),
  0 <= c0 -> c0 + Z.of_nat (length vs) <= len (b z) -> len (b z) <= cap (b z) ->
  exists z', stores vs c0 z = Some z'
    /\ c z' = c z /\ cap (b z') = cap (b z) /\ len (b z') = len (b z).
Proof.
  induction vs as [| v vs IH]; intros c0 z H0 Hfit Hlen; cbn [stores].
  - eauto.
  - cbn [length] in Hfit. unfold store.
    replace ((0 <=? c0) && (c0 <? len (b z))) with true
      by (symmetry; apply andb_true_iff; split; lia).
    cbn [mbind option_bind].
    set (z1 := set_b z _).
    assert (Hcap1 : cap (b z1) = cap (b z))
      by (unfold z1, cap; cbn; rewrite length_insert; reflexivity).
    destruct (IH (c0 + 1) z1) as (z' & Hrun & Hc & Hcap & Hl).
    + lia.
    + subst z1; cbn; lia.
    + rewrite Hcap1. subst z1; cbn; lia.
    + exists z'. rewrite Hrun, Hc, Hcap, Hl, Hcap1. auto.
Qed.

Lemma copy_at_ok (dst : slice) (lo : Z) (src : list byte) :
  0 <= lo -> lo + Z.of_nat (length src) <= len dst -> len dst <= cap dst ->
  exists b', copy_at dst lo src = Some b'
    /\ cap b' = cap dst /\ len b' = len dst.
Proof.
  intros H0 Hfit Hlen. unfold copy_at.
  replace ((0 <=? lo) && (lo <=? len dst)) with true
    by (symmetry; apply andb_true_iff; split; lia).
  eexists. split; [reflexivity |]. split; [| reflexivity].
  unfold cap in *. cbn.
  rewrite !length_app, !length_take, length_drop. lia.
Qed.

(** A fixed-width write: [grow] by the width, then the indexed stores. *)
Lemma grow_stores_ok (vs : list byte) (z : bytesEncWriter) :
  sink_ok z ->
  exists z', ('(c0, z1) ← grow (Z.of_nat (length vs)) z; stores vs c0 z1) = Some z'
    /\ sink_ok z' /\ cap (b z) <= cap (b z').
Proof.
  intros Hok.
  destruct (grow_ok (Z.of_nat (length vs)) z Hok) as (z1 & Hg & Hc1 & Hok1 & Hmono & Hwin & _);
    [lia |].
  rewrite Hg. cbn [mbind option_bind].
  destruct Hok as [[Hc0 _] _]. destruct Hok1 as [Hcur1 [Hl0 Hl1]].
  destruct (stores_ok vs (c z) z1) as (z' & Hrun & Hc & Hcap & Hl); try lia.
  exists z'. split; [exact Hrun |].
  unfold sink_ok. rewrite Hc, Hcap, Hl. repeat split; lia.
Qed.

Lemma grow_copy_ok (s : list byte) (z : bytesEncWriter) :
  sink_ok z ->
  exists z', ('(c0, z1) ← grow (Z.of_nat (length s)) z;
              b' ← copy_at (b z1) c0 s; Some (set_b z1 b')) = Some z'
    /\ sink_ok z' /\ cap (b z) <= cap (b z').
Proof.
  intros Hok.
  destruct (grow_ok (Z.of_nat (length s)) z Hok) as (z1 & Hg & Hc1 & Hok1 & Hmono & Hwin & _);
    [lia |].
  rewrite Hg. cbn [mbind option_bind].
  destruct Hok as [[Hc0 _] _]. destruct Hok1 as [Hcur1 [Hl0 Hl1]].
  destruct (copy_at_ok (b z1) (c z) s) as (b' & Hcp & Hcap & Hl); try lia.
  rewrite Hcp. cbn [mbind option_bind].
  eexists. split; [reflexivity |].
  unfold sink_ok, set_b. cbn. rewrite Hcap, Hl. repeat split; lia.
Qed.

Lemma flush_ok (z : bytesEncWriter) :
  sink_ok z ->
  exists z', flush z = Some z' /\ sink_ok z' /\ cap (b z) <= cap (b z').
Proof.
  intros Hok. unfold flush, slice_to.
  pose proof Hok as [[Hc0 Hc] _].
  replace ((0 <=? c z) && (c z <=? cap (b z))) with true
    by (symmetry; apply andb_true_iff; split; lia).
  eexists. split; [reflexivity |]. split; [exact Hok | cbn; lia].
Qed.

(** Every call of the interface runs without a runtime panic, keeps the
    invariant and never shrinks the buffer. *)
Lemma step_ok (k : call) (z : bytesEncWriter) :
  sink_ok z ->
  exists z', step k z = Some z' /\ sink_ok z' /\ cap (b z) <= cap (b z').
Proof.
  intros Hok. destruct k; cbn [step].
  - exact (grow_stores_ok [_; _] z Hok).
  - exact (grow_stores_ok [_; _; _; _] z Hok).
  - exact (grow_stores_ok [_; _; _; _; _; _; _; _] z Hok).
  - exact (grow_copy_ok s z Hok).
  - exact (grow_copy_ok s z Hok).
  - exact (grow_stores_ok [_] z Hok).
  - exact (grow_stores_ok [_; _] z Hok).
  - exact (grow_stores_ok [_; _; _] z Hok).
  - exact (grow_stores_ok [_; _; _; _] z Hok).
  - exact (flush_ok z Hok).
Qed.

Lemma run_ok (ks : list call) : forall z : bytesEncWriter,
  sink_ok z ->
  exists z', run ks z = Some z' /\ sink_ok z' /\ cap (b z) <= cap (b z').
Proof.
  induction ks as [| k ks IH]; intros z Hok; cbn [run].
  - exists z. split; [reflexivity |]. split; [exact Hok | lia].
  - destruct (step_ok k z Hok) as (z1 & Hs & Hok1 & Hm1).
    rewrite Hs. cbn [mbind option_bind].
    destruct (IH z1 Hok1) as (z2 & Hr & Hok2 & Hm2).
    exists z2. split; [exact Hr |]. split; [exact Hok2 | lia].
Qed.

Lemma run_app (ks1 ks2 : list call) : forall z : bytesEncWriter,
  run (ks1 ++ ks2) z = z1 ← run ks1 z; run ks2 z1.
Proof.
  induction ks1 as [| k ks1 IH]; intros z; cbn [run app].
  - reflexivity.
  - destruct (step k z) as [z1 |]; cbn [mbind option_bind]; [apply IH | reflexivity].
Qed.

(** C8. The buffer-backed sink's invariant. From a sink whose cursor lies
    within its capacity, any sequence of writes [ks1] followed by any
    further writes [ks2] runs to completion; at both points the logical
    length (the cursor) is at most the capacity, and the capacity never
    decreases along the way. *)
Theorem sink_invariant (ks1 ks2 : list call) (z : bytesEncWriter) :
  sink_ok z ->
  exists z1 z2,
    run ks1 z = Some z1 /\ run (ks1 ++ ks2) z = Some z2
    /\ c z1 <= cap (b z1) /\ c z2 <= cap (b z2)
    /\ cap (b z) <= cap (b z1) /\ cap (b z1) <= cap (b z2).
Proof.
  intros Hok.
  destruct (run_ok ks1 z Hok) as (z1 & Hr1 & Hok1 & Hm1).
  destruct (run_ok ks2 z1 Hok1) as (z2 & Hr2 & Hok2 & Hm2).
  exists z1, z2. rewrite run_app, Hr1. cbn [mbind option_bind].
  destruct Hok1 as [[_ Hc1] _]. destruct Hok2 as [[_ Hc2] _].
  repeat split; assumption.
Qed.

(** The invariant at work on the sink [NewEncoderBytes] builds for a nil
    output slice: 64 bytes are written into the fresh 64-byte buffer, one
    more byte makes it grow to [2 * 64 + 1]. *)
Lemma sink_invariant_witness :
  exists z0 z1 z2,
    newBytesEncWriter None = Some z0
    /\ run [Writeb (replicate 64 7)] z0 = Some z1
    /\ run ([Writeb (replicate 64 7)] ++ [Writen1 9; Flush]) z0 = Some z2
    /\ c z1 <= cap (b z1) /\ c z2 <= cap (b z2)
    /\ cap (b z0) <= cap (b z1) /\ cap (b z1) <= cap (b z2).
Proof.
  eexists. 
  assert (Hok : sink_ok {| b := {| arr := replicate 64 0; len := 64 |}; c := 0;
                           out := {| arr := []; len := 0 |} |})
    by (unfold sink_ok, cap; cbn; lia).
  destruct (sink_invariant [Writeb (replicate 64 7)] [Writen1 9; Flush] _ Hok)
    as (z1 & z2 & H).
  exists z1, z2. split; [reflexivity | exact H].
Defined.

(** ** What the sink holds *)

Lemma grow_prefix (n : Z) (z z' : bytesEncWriter) (c0 : Z) :
  sink_ok z -> grow n z = Some (c0, z') ->
  take (Z.to_nat (c z)) (arr (b z')) = live z.
Proof.
  intros [[Hc0 Hc] [Hl0 Hl]]. unfold grow, live.
  destruct (Z.gtb_spec (c z + n) (cap (b z))) as [Hgrow | _].
  - unfold make, slice_to.
    destruct (Z.ltb_spec (2 * cap (b z) + n) 0) as [? | Hsz]; [discriminate |].
    replace ((0 <=? c z) && (c z <=? cap (b z))) with true
      by (symmetry; apply andb_true_iff; split; lia).
    cbn. intros [= _ <-]. cbn [b].
    set (bs := {| arr := replicate _ 0; len := 2 * cap (b z) + n |}).
    set (pre := {| arr := arr (b z); len := c z |}).
    apply (take_copy bs pre); cbn; [change (cap pre) with (cap (b z)) |]; lia.
  - destruct (c z + n >? len (b z)).
    + unfold slice_to.
      replace ((0 <=? cap (b z)) && (cap (b z) <=? cap (b z))) with true
        by (symmetry; apply andb_true_iff; split; lia).
      cbn. intros [= _ <-]. reflexivity.
    + intros [= _ <-]. reflexivity.
Qed.

Lemma stores_content (vs : list byte) : forall (c0 : Z) (z z' : bytesEncWriter),
  0 <= c0 -> len (b z) <= cap (b z) ->
  stores vs c0 z = Some z' ->
  take (Z.to_nat c0 + length vs) (arr (b z'))
  = take (Z.to_nat c0) (arr (b z)) ++ vs.
Proof.
  induction vs as [| v vs IH]; intros c0 z z' H0 Hlen; cbn [stores].
  - intros [= <-]. rewrite Nat.add_0_r, app_nil_r. reflexivity.
  - unfold store.
    destruct (Z.leb_spec 0 c0) as [_ | ?]; [| lia].
    destruct (Z.ltb_spec c0 (len (b z))) as [Hlt | ?]; [| discriminate].
    cbn [andb mbind option_bind]. intros Hrun.
    apply IH in Hrun; [| lia | unfold cap in *; cbn; rewrite length_insert; lia].
    cbn [length].
    replace (Z.to_nat c0 + S (length vs))%nat
      with (Z.to_nat (c0 + 1) + length vs)%nat by lia.
    rewrite Hrun. cbn [set_b b arr].
    replace (Z.to_nat (c0 + 1)) with (S (Z.to_nat c0)) by lia.
    unfold cap in Hlen.
    rewrite (take_S_r _ _ v) by (apply list_lookup_insert_eq; lia).
    rewrite take_insert_ge by lia.
    rewrite <- app_assoc. reflexivity.
Qed.

Lemma copy_at_content (dst b' : slice) (lo : Z) (src : list byte) :
  lo + Z.of_nat (length src) <= len dst -> len dst <= cap dst ->
  copy_at dst lo src = Some b' ->
  take (Z.to_nat lo + length src) (arr b') = take (Z.to_nat lo) (arr dst) ++ src.
Proof.
  intros Hfit Hlen. unfold copy_at.
  destruct (Z.leb_spec 0 lo) as [H0 | ?]; [| discriminate].
  destruct (Z.leb_spec lo (len dst)) as [_ | ?]; [| discriminate].
  cbn [andb]. intros [= <-]. cbn [arr].
  replace (Z.to_nat (Z.min (len dst - lo) (Z.of_nat (length src))))
    with (length src) by lia.
  rewrite firstn_all. unfold cap in Hlen.
  rewrite app_assoc, take_app_length'; [reflexivity |].
  rewrite length_app, length_take. lia.
Qed.

(** Each call appends exactly its bytes to the live prefix. *)
Lemma step_content (k : call) (z : bytesEncWriter) :
  sink_ok z ->
  exists z', step k z = Some z' /\ sink_ok z'
    /\ live z' = live z ++ bytes_of_call k.
Proof.
  intros Hok.
  assert (Hfixed : forall vs, exists z',
             ('(c0, z1) ← grow (Z.of_nat (length vs)) z; stores vs c0 z1) = Some z'
             /\ sink_ok z' /\ live z' = live z ++ vs).
  { intros vs.
    destruct (grow_stores_ok vs z Hok) as (z' & Hrun & Hok' & _).
    exists z'. split; [exact Hrun |]. split; [exact Hok' |].
    destruct (grow_ok (Z.of_nat (length vs)) z Hok) as (z1 & Hg & Hc1 & Hok1 & _ & Hwin & _);
      [lia |].
    rewrite Hg in Hrun. cbn [mbind option_bind] in Hrun.
    pose proof (grow_prefix _ _ _ _ Hok Hg) as Hpre.
    destruct Hok as [[Hc0 _] _]. destruct Hok1 as [_ [_ Hl1]].
    destruct (stores_ok vs (c z) z1) as (z2 & Hrun2 & Hc2 & _); try lia.
    rewrite Hrun in Hrun2. injection Hrun2 as <-.
    pose proof (stores_content vs (c z) z1 z' Hc0 Hl1 Hrun) as Hcont.
    rewrite <- Hpre, <- Hcont. unfold live. rewrite Hc2, Hc1. f_equal. lia. }
  assert (Hcopy : forall s, exists z',
             ('(c0, z1) ← grow (Z.of_nat (length s)) z;
              b' ← copy_at (b z1) c0 s; Some (set_b z1 b')) = Some z'
             /\ sink_ok z' /\ live z' = live z ++ s).
  { intros s.
    destruct (grow_copy_ok s z Hok) as (z' & Hrun & Hok' & _).
    exists z'. split; [exact Hrun |]. split; [exact Hok' |].
    destruct (grow_ok (Z.of_nat (length s)) z Hok) as (z1 & Hg & Hc1 & Hok1 & _ & Hwin & _);
      [lia |].
    rewrite Hg in Hrun. cbn [mbind option_bind] in Hrun.
    pose proof (grow_prefix _ _ _ _ Hok Hg) as Hpre.
    destruct Hok as [[Hc0 _] _]. destruct Hok1 as [_ [_ Hl1]].
    destruct (copy_at (b z1) (c z) s) as [b' |] eqn:Hcp; [| discriminate].
    cbn [mbind option_bind] in Hrun. injection Hrun as <-.
    pose proof (copy_at_content (b z1) b' (c z) s ltac:(lia) Hl1 Hcp) as Hcont.
    rewrite <- Hpre, <- Hcont. unfold live, set_b. cbn [b c]. rewrite Hc1. f_equal. lia. }
  destruct k; cbn [step bytes_of_call];
    try exact (Hfixed _); try exact (Hcopy _).
  destruct (flush_ok z Hok) as (z' & Hf & Hok' & _).
  exists z'. split; [exact Hf |]. split; [exact Hok' |].
  unfold flush in Hf. destruct (slice_to (b z) (c z)); [| discriminate].
  injection Hf as <-. unfold live. cbn. rewrite app_nil_r. reflexivity.
Qed.

(** A session from the sink [NewEncoderBytes] builds: the calls run to
    completion, and a final [flush] leaves in the caller's slot exactly
    the bytes of the calls, in order. *)
Theorem session_output (o : option slice) (ks : list call) :
  (forall s, o = Some s -> 0 <= len s <= cap s) ->
  exists z0 z', newBytesEncWriter o = Some z0
    /\ run (ks ++ [Flush]) z0 = Some z'
    /\ take (Z.to_nat (len (out z'))) (arr (out z'))
       = concat (bytes_of_call <$> ks).
Proof.
  intros Hwf.
  assert (Hnew : exists z0, newBytesEncWriter o = Some z0 /\ sink_ok z0 /\ live z0 = []).
  { destruct o as [s |]; cbn.
    - eexists. split; [reflexivity |]. unfold sink_ok, live. cbn.
      specialize (Hwf s eq_refl). pose proof (cap_nonneg s).
      repeat split; (reflexivity || lia).
    - eexists. split; [reflexivity |]. unfold sink_ok, live, cap. cbn.
      rewrite length_replicate. change defEncByteBufSize with 64.
      repeat split; (reflexivity || lia). }
  destruct Hnew as (z0 & Hz0 & Hok0 & Hlive0).
  assert (Hrun : forall ks z, sink_ok z ->
            exists z', run ks z = Some z' /\ sink_ok z'
              /\ live z' = live z ++ concat (bytes_of_call <$> ks)).
  { clear. induction ks as [| k ks IH]; intros z Hok; cbn [run].
    - exists z. cbn. rewrite app_nil_r. auto.
    - destruct (step_content k z Hok) as (z1 & -> & Hok1 & Hl1).
      cbn [mbind option_bind].
      destruct (IH z1 Hok1) as (z2 & Hr & Hok2 & Hl2).
      exists z2. split; [exact Hr |]. split; [exact Hok2 |].
      rewrite Hl2, Hl1. cbn. rewrite <- app_assoc. reflexivity. }
  destruct (Hrun ks z0 Hok0) as (z1 & Hr1 & Hok1 & Hl1).
  exists z0. rewrite run_app, Hr1. cbn [mbind option_bind run step].
  unfold flush, slice_to. pose proof Hok1 as [[Hc0 Hc] _].
  replace ((0 <=? c z1) && (c z1 <=? cap (b z1))) with true
    by (symmetry; apply andb_true_iff; split; lia).
  cbn. eexists. split; [exact Hz0 |]. split; [reflexivity |].
  cbn. fold (live z1). rewrite Hl1, Hlive0. reflexivity.
Qed.

Lemma session_output_witness :
  exists z0 z', newBytesEncWriter None = Some z0
    /\ run ([WriteUint16 258; Writen1 7; Writeb [9; 9]] ++ [Flush]) z0 = Some z'
    /\ take (Z.to_nat (len (out z'))) (arr (out z')) = [1; 2; 7; 9; 9].
Proof.
  apply (session_output None [WriteUint16 258; Writen1 7; Writeb [9; 9]]).
  intros s Hs. discriminate Hs.
Defined.

(** ** The sink against any other *)

Lemma newBytesEncWriter_ok (o : option slice) :
  (forall s, o = Some s -> 0 <= len s <= cap s) ->
  exists z0, newBytesEncWriter o = Some z0 /\ sink_ok z0 /\ live z0 = [].
Proof.
  intros Hwf. destruct o as [s |]; cbn.
  - eexists. split; [reflexivity |]. unfold sink_ok, live. cbn.
    specialize (Hwf s eq_refl). pose proof (cap_nonneg s).
    repeat split; (reflexivity || lia).
  - eexists. split; [reflexivity |]. unfold sink_ok, live, cap. cbn.
    rewrite length_replicate. change defEncByteBufSize with 64.
    repeat split; (reflexivity || lia).
Qed.

Lemma run_content (ks : list call) : forall z : bytesEncWriter,
  sink_ok z ->
  exists z', run ks z = Some z' /\ sink_ok z'
    /\ live z' = live z ++ concat (bytes_of_call <$> ks).
Proof.
  induction ks as [| k ks IH]; intros z Hok; cbn [run].
  - exists z. cbn. rewrite app_nil_r. auto.
  - destruct (step_content k z Hok) as (z1 & -> & Hok1 & Hl1).
    cbn [mbind option_bind].
    destruct (IH z1 Hok1) as (z2 & Hr & Hok2 & Hl2).
    exists z2. split; [exact Hr |]. split; [exact Hok2 |].
    rewrite Hl2, Hl1. cbn. rewrite <- app_assoc. reflexivity.
Qed.

(** After a final [flush] the caller's slot is the live prefix. *)
Lemma flushed_out (ks : list call) (z z' : bytesEncWriter) :
  sink_ok z -> run (ks ++ [Flush]) z = Some z' ->
  take (Z.to_nat (len (out z'))) (arr (out z')) = live z'.
Proof.
  intros Hok. rewrite run_app.
  destruct (run_content ks z Hok) as (z1 & -> & Hok1 & _).
  cbn [mbind option_bind run step]. unfold flush, slice_to.
  pose proof Hok1 as [[Hc0 Hc] _].
  replace ((0 <=? c z1) && (c z1 <=? cap (b z1))) with true
    by (symmetry; apply andb_true_iff; split; lia).
  cbn. intros [= <-]. reflexivity.
Qed.

(** ** How much the sink allocates *)

Lemma grow_cap (n : Z) (z : bytesEncWriter) :
  sink_ok z -> 0 <= n ->
  exists z', grow n z = Some (c z, z')
    /\ cap (b z') = if c z + n >? cap (b z) then 2 * cap (b z) + n else cap (b z).
Proof.
  intros [[Hc0 Hc] [Hl0 Hl]] Hn. unfold grow.
  destruct (Z.gtb_spec (c z + n) (cap (b z))) as [Hgt | Hle].
  - unfold make, slice_to.
    destruct (Z.ltb_spec (2 * cap (b z) + n) 0) as [? | _]; [lia |].
    replace ((0 <=? c z) && (c z <=? cap (b z))) with true
      by (symmetry; apply andb_true_iff; split; lia).
    cbn. eexists. split; [reflexivity |].
    set (bs := {| arr := replicate _ 0; len := 2 * cap (b z) + n |}).
    set (pre := {| arr := arr (b z); len := c z |}).
    assert (Hbs : len bs = cap bs).
    { unfold bs, cap. cbn. rewrite length_replicate. lia. }
    assert (Hpre : 0 <= len pre <= cap pre)
      by (cbn; change (cap pre) with (cap (b z)); lia).
    assert (Hfit : len pre <= len bs) by (cbn; lia).
    cbn. rewrite (cap_copy bs pre Hpre Hfit Hbs), <- Hbs. reflexivity.
  - destruct (Z.gtb_spec (c z + n) (len (b z))) as [Hgt | Hle'].
    + unfold slice_to.
      replace ((0 <=? cap (b z)) && (cap (b z) <=? cap (b z))) with true
        by (symmetry; apply andb_true_iff; split; lia).
      cbn. eexists. split; reflexivity.
    + eexists. split; reflexivity.
Qed.

(** Each call moves the cursor by the number of its bytes and
    reallocates, to twice the capacity plus that number, only when the
    bytes do not fit. *)
Lemma step_cap (k : call) (z : bytesEncWriter) :
  sink_ok z ->
  exists z', step k z = Some z' /\ sink_ok z'
    /\ c z' = c z + Z.of_nat (length (bytes_of_call k))
    /\ cap (b z') = if c z' >? cap (b z)
                    then 2 * cap (b z) + Z.of_nat (length (bytes_of_call k))
                    else cap (b z).
Proof.
  intros Hok.
  assert (Hfixed : forall vs, exists z',
             ('(c0, z1) ← grow (Z.of_nat (length vs)) z; stores vs c0 z1) = Some z'
             /\ sink_ok z' /\ c z' = c z + Z.of_nat (length vs)
             /\ cap (b z') = if c z' >? cap (b z)
                             then 2 * cap (b z) + Z.of_nat (length vs)
                             else cap (b z)).
  { intros vs.
    destruct (grow_stores_ok vs z Hok) as (z' & Hrun & Hok' & _).
    exists z'. split; [exact Hrun |]. split; [exact Hok' |].
    destruct (grow_ok (Z.of_nat (length vs)) z Hok) as (z1 & Hg & Hc1 & Hok1 & _ & Hwin & _);
      [lia |].
    destruct (grow_cap (Z.of_nat (length vs)) z Hok) as (z1' & Hg' & Hcap1); [lia |].
    rewrite Hg in Hg'. injection Hg' as <-.
    rewrite Hg in Hrun. cbn [mbind option_bind] in Hrun.
    destruct Hok as [[Hc0 _] _]. destruct Hok1 as [_ [_ Hl1]].
    destruct (stores_ok vs (c z) z1) as (z2 & Hrun2 & Hc2 & Hcap2 & _); try lia.
    rewrite Hrun in Hrun2. injection Hrun2 as <-.
    rewrite Hc2, Hcap2, Hc1. split; [reflexivity | exact Hcap1]. }
  assert (Hcopy : forall s, exists z',
             ('(c0, z1) ← grow (Z.of_nat (length s)) z;
              b' ← copy_at (b z1) c0 s; Some (set_b z1 b')) = Some z'
             /\ sink_ok z' /\ c z' = c z + Z.of_nat (length s)
             /\ cap (b z') = if c z' >? cap (b z)
                             then 2 * cap (b z) + Z.of_nat (length s)
                             else cap (b z)).
  { intros s.
    destruct (grow_copy_ok s z Hok) as (z' & Hrun & Hok' & _).
    exists z'. split; [exact Hrun |]. split; [exact Hok' |].
    destruct (grow_ok (Z.of_nat (length s)) z Hok) as (z1 & Hg & Hc1 & Hok1 & _ & Hwin & _);
      [lia |].
    destruct (grow_cap (Z.of_nat (length s)) z Hok) as (z1' & Hg' & Hcap1); [lia |].
    rewrite Hg in Hg'. injection Hg' as <-.
    rewrite Hg in Hrun. cbn [mbind option_bind] in Hrun.
    destruct Hok as [[Hc0 _] _]. destruct Hok1 as [_ [_ Hl1]].
    destruct (copy_at_ok (b z1) (c z) s) as (b' & Hcp & Hcap & _); try lia.
    rewrite Hcp in Hrun. cbn [mbind option_bind] in Hrun. injection Hrun as <-.
    unfold set_b. cbn [b c]. rewrite Hcap, Hc1. split; [reflexivity | exact Hcap1]. }
  destruct k; cbn [step bytes_of_call];
    try exact (Hfixed [_]); try exact (Hfixed [_; _]); try exact (Hfixed [_; _; _]);
    try exact (Hfixed [_; _; _; _]); try exact (Hfixed [_; _; _; _; _; _; _; _]);
    try exact (Hcopy _).
  destruct (flush_ok z Hok) as (z' & Hf & Hok' & _).
  exists z'. split; [exact Hf |]. split; [exact Hok' |].
  unfold flush in Hf. destruct (slice_to (b z) (c z)); [| discriminate].
  injection Hf as <-. cbn [b c length Z.of_nat]. destruct Hok as [[_ Hc] _].
  destruct (Z.gtb_spec (c z) (cap (b z))); [lia |]. split; [lia | reflexivity].
Qed.

(** The memory a session takes. From a sink whose cursor lies within its
    capacity, any sequence of calls moves the cursor by the number of
    bytes written, leaves a buffer of at most three times the bytes held
    (or the capacity it started with, if that is more), and does not
    reallocate at all while the bytes fit the capacity it started with. *)
Theorem capacity_bound (ks : list call) (z : bytesEncWriter) :
  sink_ok z ->
  exists z', run ks z = Some z'
    /\ c z' = c z + Z.of_nat (length (concat (bytes_of_call <$> ks)))
    /\ cap (b z') <= Z.max (cap (b z)) (3 * c z')
    /\ (c z' <= cap (b z) -> cap (b z') = cap (b z)).
Proof.
  revert z. induction ks as [| k ks IH]; intros z Hok; cbn [run].
  - exists z. cbn. repeat split; lia.
  - destruct (step_cap k z Hok) as (z1 & -> & Hok1 & Hc1 & Hcap1).
    cbn [mbind option_bind].
    destruct (IH z1 Hok1) as (z2 & Hr & Hc2 & Hbound & Hfit).
    exists z2. split; [exact Hr |].
    cbn [fmap list_fmap concat]. rewrite length_app, Nat2Z.inj_add.
    fold (fmap (M := list) bytes_of_call ks).
    destruct Hok as [[Hc0 Hc] _].
    destruct (Z.gtb_spec (c z1) (cap (b z))) as [Hgt | Hle];
      repeat split; lia.
Qed.

(** Sixty bytes into the fresh 64-byte buffer stay in place; ten more
    make it grow once, to [2 * 64 + 8] for the write that did not fit. *)
Lemma capacity_bound_witness :
  exists z',
    run [Writeb (replicate 60 7); WriteUint64 1; Writen2 1 2]
      {| b := {| arr := replicate 64 0; len := 64 |}; c := 0;
         out := {| arr := []; len := 0 |} |} = Some z'
    /\ c z' = 0 + 70
    /\ cap (b z') <= Z.max 64 (3 * c z')
    /\ (c z' <= 64 -> cap (b z') = 64).
Proof.
  apply (capacity_bound [Writeb (replicate 60 7); WriteUint64 1; Writen2 1 2]
           {| b := {| arr := replicate 64 0; len := 64 |}; c := 0;
              out := {| arr := []; len := 0 |} |}).
  unfold sink_ok, cap. cbn. lia.
Defined.

End ByteSink.

(* ===================================================================== *)
(** * The timestamp payload                                               *)
(* ===================================================================== *)

Module TimeCodec.
Local Open Scope Z_scope.

(** Go's fixed-width conversions, written out on [Z]. *)
Definition to_uint16 (v : Z) : Z := v mod 2 ^ 16.
Definition to_uint32 (v : Z) : Z := v mod 2 ^ 32.
Definition to_uint64 (v : Z) : Z := v mod 2 ^ 64.
Definition to_int32 (v : Z) : Z := (v + 2 ^ 31) mod 2 ^ 32 - 2 ^ 31.

Definition MaxInt32 : Z := 2 ^ 31 - 1.
Definition MinInt32 : Z := - 2 ^ 31.

(** [t.Location()] is compared with the one [time.UTC] location; any other
    location is told apart by its name only. *)
Inductive Location :=
| UTC
| Zone (name : string).

(** What [encodeTime] reads of a [time.Time]: [t.Unix()] (an int64),
    [t.Nanosecond()] (in [0, 999999999]), [t.Location()] and the offset in
    seconds east of UTC that [t.Zone()] reports. *)
Record Time := {
  Unix : Z;
  Nanosecond : Z;
  Loc : Location;
  ZoneOffset : Z
}.

(** [bigen.PutUint16/32/64(bs[i:], v)]: big-endian stores into the array. *)
Definition PutUint16 (bs : list byte) (i : nat) (v : Z) : list byte :=
  <[(i + 1)%nat := byte_of v]> (<[i := byte_of (Z.shiftr v 8)]> bs).

Definition PutUint32 (bs : list byte) (i : nat) (v : Z) : list byte :=
  <[(i + 3)%nat := byte_of v]>
    (<[(i + 2)%nat := byte_of (Z.shiftr v 8)]>
       (<[(i + 1)%nat := byte_of (Z.shiftr v 16)]>
          (<[i := byte_of (Z.shiftr v 24)]> bs))).

Definition PutUint64 (bs : list byte) (i : nat) (v : Z) : list byte :=
  <[(i + 7)%nat := byte_of v]>
    (<[(i + 6)%nat := byte_of (Z.shiftr v 8)]>
       (<[(i + 5)%nat := byte_of (Z.shiftr v 16)]>
          (<[(i + 4)%nat := byte_of (Z.shiftr v 24)]>
             (<[(i + 3)%nat := byte_of (Z.shiftr v 32)]>
                (<[(i + 2)%nat := byte_of (Z.shiftr v 40)]>
                   (<[(i + 1)%nat := byte_of (Z.shiftr v 48)]>
                      (<[i := byte_of (Z.shiftr v 56)]> bs))))))).

(** The state of [encodeTime]'s body: the 14-byte array [bs], the write
    index [i] and the [padzero] flag. *)
Record scratch := { bs : list byte; i : nat; padzero : bool }.

(** [if tsecs > math.MinInt32 && tsecs < math.MaxInt32 { ... } else { ... }] *)
Definition put_seconds (tsecs tnsecs : Z) (s : scratch) : scratch :=
  if (tsecs >? MinInt32) && (tsecs <? MaxInt32) then
    {| bs := PutUint32 (bs s) (i s) (to_uint32 (to_int32 tsecs));
       i := (i s + 4)%nat; padzero := padzero s |}
  else
    {| bs := PutUint64 (bs s) (i s) (to_uint64 tsecs);
       i := (i s + 8)%nat; padzero := (tnsecs =? 0) |}.

(** [if tnsecs != 0 { ... }] *)
Definition put_nanos (tnsecs : Z) (s : scratch) : scratch :=
  if negb (tnsecs =? 0) then
    {| bs := PutUint32 (bs s) (i s) (to_uint32 tnsecs);
       i := (i s + 4)%nat; padzero := padzero s |}
  else s.

(** The zone field: minutes from UTC (Go's [/] truncates toward zero), the
    magnitude in the low bits and the sign in bit 15. *)
Definition zone_field (zoneOffset : Z) : Z :=
  let zoneOffset := Z.quot zoneOffset 60 in
  let isNeg := zoneOffset <? 0 in
  let zoneOffset := if isNeg then - zoneOffset else zoneOffset in
  let z := to_uint16 zoneOffset in
  if isNeg then Z.lor z (Z.shiftl 1 15) else z.

(** [if l != nil { ... }], where [l] was set to nil for [time.UTC]. *)
Definition put_zone (t : Time) (s : scratch) : scratch :=
  match Loc t with
  | UTC => s
  | Zone _ =>
      {| bs := PutUint16 (bs s) (i s) (zone_field (ZoneOffset t));
         i := (i s + 2)%nat; padzero := padzero s |}
  end.

(** [if padzero { i = i + 1 }] *)
Definition put_pad (s : scratch) : scratch :=
  if padzero s then {| bs := bs s; i := (i s + 1)%nat; padzero := padzero s |}
  else s.

(** [func encodeTime(t time.Time) ([]byte)] *)
Definition encodeTime (t : Time) : list byte :=
  let tsecs := Unix t in
  let tnsecs := Nanosecond t in
  let s := {| bs := replicate 14 0; i := 0; padzero := false |} in
  let s := put_seconds tsecs tnsecs s in
  let s := put_nanos tnsecs s in
  let s := put_zone t s in
  let s := put_pad s in
  take (i s) (bs s).

(** The number of bytes each step adds, by the branch it takes. *)
Definition seconds_width (tsecs : Z) : nat :=
  if (tsecs >? MinInt32) && (tsecs <? MaxInt32) then 4%nat else 8%nat.

Definition nanos_width (tnsecs : Z) : nat :=
  if tnsecs =? 0 then 0%nat else 4%nat.

Definition zone_width (l : Location) : nat :=
  match l with UTC => 0%nat | Zone _ => 2%nat end.

Definition pad_width (tsecs tnsecs : Z) : nat :=
  if (tsecs >? MinInt32) && (tsecs <? MaxInt32) then 0%nat
  else if tnsecs =? 0 then 1%nat else 0%nat.

(** The bytes [bigen.PutUint16/32/64] store, most significant first. *)
Definition bigen16 (v : Z) : list byte := [byte_of (Z.shiftr v 8); byte_of v].

Definition bigen32 (v : Z) : list byte :=
  [byte_of (Z.shiftr v 24); byte_of (Z.shiftr v 16);
   byte_of (Z.shiftr v 8); byte_of v].

Definition bigen64 (v : Z) : list byte :=
  [byte_of (Z.shiftr v 56); byte_of (Z.shiftr v 48);
   byte_of (Z.shiftr v 40); byte_of (Z.shiftr v 32);
   byte_of (Z.shiftr v 24); byte_of (Z.shiftr v 16);
   byte_of (Z.shiftr v 8); byte_of v].

(** The [n] low bytes of [v], most significant first. *)
Fixpoint bigen (n : nat) (v : Z) : list byte :=
  match n with
  | O => []
  | S n' => bigen n' (Z.shiftr v 8) ++ [byte_of v]
  end.

(** The four fields of the payload, by the branch each step takes. *)
Definition seconds_bytes (tsecs : Z) : list byte :=
  if (tsecs >? MinInt32) && (tsecs <? MaxInt32)
  then bigen32 (to_uint32 (to_int32 tsecs))
  else bigen64 (to_uint64 tsecs).

Definition nanos_bytes (tnsecs : Z) : list byte :=
  if tnsecs =? 0 then [] else bigen32 (to_uint32 tnsecs).

Definition zone_bytes (t : Time) : list byte :=
  match Loc t with UTC => [] | Zone _ => bigen16 (zone_field (ZoneOffset t)) end.

Definition pad_bytes (tsecs tnsecs : Z) : list byte :=
  replicate (pad_width tsecs tnsecs) 0.

(** What a [time.Time] can hold: seconds in an int64, nanoseconds within
    the second, and an offset whose whole minutes fit the fifteen
    magnitude bits of the zone field. *)
Definition representable (t : Time) : Prop :=
  - 2 ^ 63 <= Unix t < 2 ^ 63
  /\ 0 <= Nanosecond t <= 999999999
  /\ - 2 ^ 15 < Z.quot (ZoneOffset t) 60 < 2 ^ 15.

(** ** Properties of the payload *)

Lemma length_PutUint16 (l : list byte) (k : nat) (v : Z) :
  length (PutUint16 l k v) = length l.
Proof. unfold PutUint16. rewrite !length_insert. reflexivity. Qed.

Lemma length_PutUint32 (l : list byte) (k : nat) (v : Z) :
  length (PutUint32 l k v) = length l.
Proof. unfold PutUint32. rewrite !length_insert. reflexivity. Qed.

Lemma length_PutUint64 (l : list byte) (k : nat) (v : Z) :
  length (PutUint64 l k v) = length l.
Proof. unfold PutUint64. rewrite !length_insert. reflexivity. Qed.

(** The payload's length is the sum of the widths of the fields written,
    for every instant. *)
Lemma length_encodeTime (t : Time) :
  length (encodeTime t)
  = (seconds_width (Unix t) + nanos_width (Nanosecond t)
     + zone_width (Loc t) + pad_width (Unix t) (Nanosecond t))%nat.
Proof.
  unfold encodeTime, put_seconds, put_nanos, put_zone, put_pad,
    seconds_width, nanos_width, zone_width, pad_width.
  destruct ((Unix t >? MinInt32) && (Unix t <? MaxInt32));
    destruct (Nanosecond t =? 0); destruct (Loc t); cbn -[PutUint16 PutUint32 PutUint64 replicate];
    rewrite length_take;
    rewrite ?length_PutUint16, ?length_PutUint32, ?length_PutUint64, length_replicate;
    reflexivity.
Qed.

(** The lengths the specification lists, for seconds strictly between
    [math.MinInt32] and [math.MaxInt32] (the guard of the source): 4 bytes
    for a UTC instant without nanoseconds, 8 with nanoseconds, 6 for a
    non-UTC instant without nanoseconds; and 9 bytes for a UTC instant
    without nanoseconds whose seconds fail the guard. *)
Theorem encodeTime_lengths (t : Time) :
  (MinInt32 < Unix t < MaxInt32 ->
     (Loc t = UTC -> Nanosecond t = 0 -> length (encodeTime t) = 4%nat)
     /\ (Loc t = UTC -> Nanosecond t <> 0 -> length (encodeTime t) = 8%nat)
     /\ (Loc t <> UTC -> Nanosecond t = 0 -> length (encodeTime t) = 6%nat))
  /\ (Unix t <= MinInt32 \/ MaxInt32 <= Unix t ->
        Loc t = UTC -> Nanosecond t = 0 -> length (encodeTime t) = 9%nat).
Proof.
  rewrite length_encodeTime.
  unfold seconds_width, nanos_width, zone_width, pad_width.
  split.
  - intros [Hlo Hhi].
    replace ((Unix t >? MinInt32) && (Unix t <? MaxInt32)) with true
      by (symmetry; apply andb_true_iff; split; lia).
    repeat split.
    + intros -> ->. reflexivity.
    + intros -> Hns. apply Z.eqb_neq in Hns. rewrite Hns. reflexivity.
    + intros Hl ->. destruct (Loc t); [congruence | reflexivity].
  - intros Hout -> ->.
    replace ((Unix t >? MinInt32) && (Unix t <? MaxInt32)) with false
      by (symmetry; apply andb_false_iff; lia).
    reflexivity.
Qed.

(** The payload is between 4 and 14 bytes long. *)
Theorem encodeTime_length_bounds (t : Time) :
  (4 <= length (encodeTime t) <= 14)%nat.
Proof.
  rewrite length_encodeTime.
  unfold seconds_width, nanos_width, zone_width, pad_width.
  destruct ((Unix t >? MinInt32) && (Unix t <? MaxInt32));
    destruct (Nanosecond t =? 0); destruct (Loc t); cbn; lia.
Qed.

(** C3, at the edge of the signed 32-bit range. The seconds value
    [math.MaxInt32] (and likewise [math.MinInt32]) fits a signed 32-bit
    integer, yet the strict comparisons of the guard send it to the
    8-byte branch: a UTC instant without nanoseconds at that second is
    encoded in 9 bytes (8 of seconds and the pad byte), not 4; one second
    earlier it takes 4. *)
Theorem encodeTime_MaxInt32_is_long :
  encodeTime {| Unix := MaxInt32; Nanosecond := 0; Loc := UTC; ZoneOffset := 0 |}
    = [0; 0; 0; 0; 127; 255; 255; 255; 0]
  /\ encodeTime {| Unix := MinInt32; Nanosecond := 0; Loc := UTC; ZoneOffset := 0 |}
    = [255; 255; 255; 255; 128; 0; 0; 0; 0]
  /\ encodeTime {| Unix := MaxInt32 - 1; Nanosecond := 0; Loc := UTC; ZoneOffset := 0 |}
    = [127; 255; 255; 254]
  /\ to_int32 MaxInt32 = MaxInt32 /\ to_int32 MinInt32 = MinInt32.
Proof.
  repeat split; vm_compute; reflexivity.
Qed.

(** ** The payload can be read back *)

Lemma byte_of_mod (v : Z) : byte_of v = v mod 2 ^ 8.
Proof.
  unfold byte_of. change 255 with (Z.ones 8). apply Z.land_ones. lia.
Qed.

Lemma bigen16_bigen (v : Z) : bigen16 v = bigen 2 v.
Proof. reflexivity. Qed.

Lemma bigen32_bigen (v : Z) : bigen32 v = bigen 4 v.
Proof.
  unfold bigen32. cbn [bigen app]. rewrite !Z.shiftr_shiftr by lia. reflexivity.
Qed.

Lemma bigen64_bigen (v : Z) : bigen64 v = bigen 8 v.
Proof.
  unfold bigen64. cbn [bigen app]. rewrite !Z.shiftr_shiftr by lia. reflexivity.
Qed.

Lemma length_bigen (n : nat) : forall v, length (bigen n v) = n.
Proof.
  induction n as [| n IH]; intros v; cbn [bigen]; [reflexivity |].
  rewrite length_app, IH. cbn. lia.
Qed.

(** Big-endian bytes determine the value they were taken from, up to the
    width. *)
Lemma bigen_inj (n : nat) : forall v v',
  bigen n v = bigen n v' ->
  v mod 2 ^ (8 * Z.of_nat n) = v' mod 2 ^ (8 * Z.of_nat n).
Proof.
  induction n as [| n IH]; intros v v' H.
  - cbn. rewrite !Z.mod_1_r. reflexivity.
  - cbn [bigen] in H. apply app_inj_2 in H as [Hhi Hlo]; [| reflexivity].
    injection Hlo as Hlo. apply IH in Hhi.
    rewrite !byte_of_mod in Hlo. rewrite !Z.shiftr_div_pow2 in Hhi by lia.
    replace (8 * Z.of_nat (S n)) with (8 + 8 * Z.of_nat n) by lia.
    rewrite Z.pow_add_r by lia.
    rewrite !Z.rem_mul_r by lia. rewrite Hhi, Hlo. reflexivity.
Qed.

(** The payload is its four fields, one after the other. *)
Lemma encodeTime_layout (t : Time) :
  encodeTime t
  = seconds_bytes (Unix t) ++ nanos_bytes (Nanosecond t) ++ zone_bytes t
    ++ pad_bytes (Unix t) (Nanosecond t).
Proof.
  unfold encodeTime, put_seconds, put_nanos, put_zone, put_pad,
    seconds_bytes, nanos_bytes, zone_bytes, pad_bytes, pad_width.
  destruct ((Unix t >? MinInt32) && (Unix t <? MaxInt32));
    destruct (Nanosecond t =? 0); destruct (Loc t); reflexivity.
Qed.

Lemma length_seconds_bytes (tsecs : Z) :
  length (seconds_bytes tsecs) = seconds_width tsecs.
Proof.
  unfold seconds_bytes, seconds_width.
  destruct ((tsecs >? MinInt32) && (tsecs <? MaxInt32)); reflexivity.
Qed.

Lemma length_nanos_bytes (tnsecs : Z) :
  length (nanos_bytes tnsecs) = nanos_width tnsecs.
Proof. unfold nanos_bytes, nanos_width. destruct (tnsecs =? 0); reflexivity. Qed.

Lemma length_zone_bytes (t : Time) : length (zone_bytes t) = zone_width (Loc t).
Proof. unfold zone_bytes, zone_width. destruct (Loc t); reflexivity. Qed.

(** The length of the payload tells which fields it holds: the eight
    layouts have eight different lengths. *)
Lemma layout_by_length (t1 t2 : Time) :
  length (encodeTime t1) = length (encodeTime t2) ->
  seconds_width (Unix t1) = seconds_width (Unix t2)
  /\ nanos_width (Nanosecond t1) = nanos_width (Nanosecond t2)
  /\ zone_width (Loc t1) = zone_width (Loc t2).
Proof.
  rewrite !length_encodeTime.
  unfold seconds_width, nanos_width, zone_width, pad_width.
  destruct ((Unix t1 >? MinInt32) && (Unix t1 <? MaxInt32));
    destruct ((Unix t2 >? MinInt32) && (Unix t2 <? MaxInt32));
    destruct (Nanosecond t1 =? 0); destruct (Nanosecond t2 =? 0);
    destruct (Loc t1); destruct (Loc t2); cbn; lia.
Qed.

Lemma lor_sign_bit (m : Z) :
  0 <= m < 2 ^ 15 -> Z.lor m (Z.shiftl 1 15) = m + 2 ^ 15.
Proof.
  intros Hm. pose proof (Z.add_lor_land m (Z.shiftl 1 15)) as Hadd.
  assert (Hland : Z.land m (Z.shiftl 1 15) = 0).
  { rewrite <- (Z.mod_small m (2 ^ 15)) by lia.
    rewrite <- Z.land_ones by lia. rewrite <- Z.land_assoc.
    change (Z.land (Z.ones 15) (Z.shiftl 1 15)) with 0.
    apply Z.land_0_r. }
  rewrite Hland in Hadd. change (Z.shiftl 1 15) with (2 ^ 15) in *. lia.
Qed.

(** The zone field keeps the whole minutes and their sign. *)
Lemma zone_field_value (zoneOffset : Z) :
  - 2 ^ 15 < Z.quot zoneOffset 60 < 2 ^ 15 ->
  zone_field zoneOffset
  = if Z.quot zoneOffset 60 <? 0 then 2 ^ 15 - Z.quot zoneOffset 60
    else Z.quot zoneOffset 60.
Proof.
  intros Hq. unfold zone_field, to_uint16.
  destruct (Z.ltb_spec (Z.quot zoneOffset 60) 0) as [Hneg | Hpos].
  - rewrite Z.mod_small by lia. rewrite lor_sign_bit by lia. lia.
  - apply Z.mod_small. lia.
Qed.

(** The length of the payload tells which fields it holds, which is what a
    reader needs to take it apart: the eight layouts have the eight
    lengths 4, 6, 8, 9, 10, 11, 12 and 14, the seconds are four bytes wide
    exactly for the lengths 4, 6, 8 and 10, nanoseconds are present exactly
    for 8, 10, 12 and 14, and a zone exactly for 6, 10, 11 and 14. *)
Theorem encodeTime_length_tells_fields (t : Time) :
  In (length (encodeTime t)) [4; 6; 8; 9; 10; 11; 12; 14]%nat
  /\ (MinInt32 < Unix t < MaxInt32 <-> In (length (encodeTime t)) [4; 6; 8; 10]%nat)
  /\ (Nanosecond t <> 0 <-> In (length (encodeTime t)) [8; 10; 12; 14]%nat)
  /\ (Loc t <> UTC <-> In (length (encodeTime t)) [6; 10; 11; 14]%nat).
Proof.
  rewrite length_encodeTime.
  unfold seconds_width, nanos_width, zone_width, pad_width.
  destruct (Z.gtb_spec (Unix t) MinInt32); destruct (Z.ltb_spec (Unix t) MaxInt32);
    destruct (Z.eqb_spec (Nanosecond t) 0); destruct (Loc t);
    cbn [andb Nat.add In]; repeat split; try lia; try congruence;
    try (intros _; discriminate); intros; exfalso; lia.
Qed.

(** The payload determines the instant: two representable instants with
    the same payload have the same seconds and nanoseconds, are both in
    UTC or both not, and outside UTC have the same offset in whole
    minutes. *)
Theorem encodeTime_injective (t1 t2 : Time) :
  representable t1 -> representable t2 ->
  encodeTime t1 = encodeTime t2 ->
  Unix t1 = Unix t2
  /\ Nanosecond t1 = Nanosecond t2
  /\ (Loc t1 = UTC <-> Loc t2 = UTC)
  /\ (Loc t1 <> UTC -> Z.quot (ZoneOffset t1) 60 = Z.quot (ZoneOffset t2) 60).
Proof.
  intros (Hs1 & Hn1 & Hz1) (Hs2 & Hn2 & Hz2) Heq.
  destruct (layout_by_length t1 t2 (f_equal length Heq)) as (Hws & Hwn & Hwz).
  rewrite !encodeTime_layout in Heq.
  apply app_inj_1 in Heq as [Hsecs Heq];
    [| rewrite !length_seconds_bytes; exact Hws].
  apply app_inj_1 in Heq as [Hnanos Heq];
    [| rewrite !length_nanos_bytes; exact Hwn].
  apply app_inj_1 in Heq as [Hzone _];
    [| rewrite !length_zone_bytes; exact Hwz].
  split; [| split; [| split]].
  - unfold seconds_bytes in Hsecs. unfold seconds_width in Hws.
    destruct ((Unix t1 >? MinInt32) && (Unix t1 <? MaxInt32)) eqn:Hg1;
      destruct ((Unix t2 >? MinInt32) && (Unix t2 <? MaxInt32)) eqn:Hg2;
      try discriminate Hws.
    + apply andb_true_iff in Hg1 as [Hlo1 Hhi1], Hg2 as [Hlo2 Hhi2].
      rewrite !bigen32_bigen in Hsecs. apply bigen_inj in Hsecs.
      unfold to_uint32, to_int32, MinInt32, MaxInt32 in *.
      change (2 ^ (8 * Z.of_nat 4)) with (2 ^ 32) in Hsecs.
      rewrite !Z.mod_mod in Hsecs by lia.
      rewrite (Z.mod_small (Unix t1 + 2 ^ 31)) in Hsecs by lia.
      rewrite (Z.mod_small (Unix t2 + 2 ^ 31)) in Hsecs by lia.
      replace (Unix t1 + 2 ^ 31 - 2 ^ 31) with (Unix t1) in Hsecs by lia.
      replace (Unix t2 + 2 ^ 31 - 2 ^ 31) with (Unix t2) in Hsecs by lia.
      rewrite <- (Z.add_0_r (Unix t1)), <- (Z.add_0_r (Unix t2)).
      apply (f_equal (fun x => (x + 2 ^ 31) mod 2 ^ 32)) in Hsecs.
      rewrite !Zplus_mod_idemp_l in Hsecs.
      rewrite !Z.mod_small in Hsecs by lia. lia.
    + rewrite !bigen64_bigen in Hsecs. apply bigen_inj in Hsecs.
      unfold to_uint64 in Hsecs.
      change (2 ^ (8 * Z.of_nat 8)) with (2 ^ 64) in Hsecs.
      rewrite !Z.mod_mod in Hsecs by lia.
      apply (f_equal (fun x => (x + 2 ^ 63) mod 2 ^ 64)) in Hsecs.
      rewrite !Zplus_mod_idemp_l in Hsecs.
      rewrite !Z.mod_small in Hsecs by lia. lia.
  - unfold nanos_bytes in Hnanos. unfold nanos_width in Hwn.
    destruct (Z.eqb_spec (Nanosecond t1) 0) as [-> | _];
      destruct (Z.eqb_spec (Nanosecond t2) 0) as [-> | _];
      try discriminate Hwn; [reflexivity |].
    rewrite !bigen32_bigen in Hnanos. apply bigen_inj in Hnanos.
    unfold to_uint32 in Hnanos.
    change (2 ^ (8 * Z.of_nat 4)) with (2 ^ 32) in Hnanos.
    rewrite !Z.mod_mod in Hnanos by lia.
    rewrite !Z.mod_small in Hnanos by lia. exact Hnanos.
  - unfold zone_width in Hwz.
    destruct (Loc t1), (Loc t2); try discriminate Hwz; split; congruence.
  - intros Hloc. unfold zone_bytes in Hzone. unfold zone_width in Hwz.
    destruct (Loc t1); [congruence |].
    destruct (Loc t2); [discriminate Hwz |].
    rewrite !bigen16_bigen in Hzone. apply bigen_inj in Hzone.
    change (2 ^ (8 * Z.of_nat 2)) with (2 ^ 16) in Hzone.
    rewrite !zone_field_value in Hzone by assumption.
    destruct (Z.ltb_spec (Z.quot (ZoneOffset t1) 60) 0);
      destruct (Z.ltb_spec (Z.quot (ZoneOffset t2) 60) 0);
      rewrite !Z.mod_small in Hzone by lia; lia.
Qed.

(** Two instants a minute apart in their offsets' seconds, under different
    zone names: the same payload, the same whole minutes. *)
Lemma encodeTime_injective_witness :
  let t1 := {| Unix := 1000; Nanosecond := 5; Loc := Zone "CET"; ZoneOffset := 3600 |} in
  let t2 := {| Unix := 1000; Nanosecond := 5; Loc := Zone "MET"; ZoneOffset := 3630 |} in
  Unix t1 = Unix t2
  /\ Nanosecond t1 = Nanosecond t2
  /\ (Loc t1 = UTC <-> Loc t2 = UTC)
  /\ (Loc t1 <> UTC -> Z.quot (ZoneOffset t1) 60 = Z.quot (ZoneOffset t2) 60).
Proof.
  intros t1 t2. apply (encodeTime_injective t1 t2).
  - subst t1. unfold representable. cbn [Unix Nanosecond ZoneOffset].
    change (Z.quot 3600 60) with 60. lia.
  - subst t2. unfold representable. cbn [Unix Nanosecond ZoneOffset].
    change (Z.quot 3630 60) with 60. lia.
  - reflexivity.
Defined.

End TimeCodec.

(* ===================================================================== *)
(** * The writer-backed byte sink                                         *)
(* ===================================================================== *)

Module StreamSink.
Local Open Scope Z_scope.

Section stream.

(** The state of the writer behind the sink: a [bufio.Writer], a
    [bytes.Buffer] or any other implementation of the interface. *)
Context {W : Type}.

Definition error := string.

(** [ioEncWriterWriter]: each method acts on the writer and returns what
    the Go method returns (a nil error is [None]). [Flush] is the method
    of [ioEncWriterFlusher], present when the writer implements it. *)
Record ioEncWriterWriter := {
  WriteByte : byte -> W -> W * option error;
  WriteString : list byte -> W -> W * (Z * option error);
  Write : list byte -> W -> W * (Z * option error);
  Flush : option (W -> W * option error)
}.

Variable io : ioEncWriterWriter.

(** [ioEncWriter]: the writer and the scratch array [x], a [[8]byte]. *)
Record ioEncWriter := { w : W; x : list byte }.

(** The panics of the sink: the writer's error, or a count that is not
    the number of bytes handed over. *)
Inductive panic :=
| writerError (e : error)
| incorrectNumBytes (expecting wrote : Z).

(** A call returns, or panics and leaves the sink as it then is. *)
Inductive result :=
| Done (z : ioEncWriter)
| Panic (p : panic) (z : ioEncWriter).

Definition andThen (r : result) (k : ioEncWriter -> result) : result :=
  match r with
  | Done z => k z
  | Panic p z => Panic p z
  end.

(** [func (z *ioEncWriter) writeb(bs []byte)] *)
Definition writeb (bs : list byte) (z : ioEncWriter) : result :=
  let '(w', (n, err)) := Write io bs (w z) in
  let z' := {| w := w'; x := x z |} in
  match err with
  | Some e => Panic (writerError e) z'
  | None =>
      if negb (n =? Z.of_nat (length bs))
      then Panic (incorrectNumBytes (Z.of_nat (length bs)) n) z'
      else Done z'
  end.

(** [func (z *ioEncWriter) writestr(s string)] *)
Definition writestr (s : list byte) (z : ioEncWriter) : result :=
  let '(w', (n, err)) := WriteString io s (w z) in
  let z' := {| w := w'; x := x z |} in
  match err with
  | Some e => Panic (writerError e) z'
  | None =>
      if negb (n =? Z.of_nat (length s))
      then Panic (incorrectNumBytes (Z.of_nat (length s)) n) z'
      else Done z'
  end.

(** [bigen.PutUint16(z.x[:2], v); z.writeb(z.x[:2])], and the wider two. *)
Definition writeUint16 (v : Z) (z : ioEncWriter) : result :=
  let z1 := {| w := w z; x := TimeCodec.PutUint16 (x z) 0 v |} in
  writeb (take 2 (x z1)) z1.

Definition writeUint32 (v : Z) (z : ioEncWriter) : result :=
  let z1 := {| w := w z; x := TimeCodec.PutUint32 (x z) 0 v |} in
  writeb (take 4 (x z1)) z1.

Definition writeUint64 (v : Z) (z : ioEncWriter) : result :=
  let z1 := {| w := w z; x := TimeCodec.PutUint64 (x z) 0 v |} in
  writeb (take 8 (x z1)) z1.

(** [func (z *ioEncWriter) writen1(b byte)] *)
Definition writen1 (b1 : byte) (z : ioEncWriter) : result :=
  let '(w', err) := WriteByte io b1 (w z) in
  let z' := {| w := w'; x := x z |} in
  match err with
  | Some e => Panic (writerError e) z'
  | None => Done z'
  end.

Definition writen2 (b1 b2 : byte) (z : ioEncWriter) : result :=
  andThen (writen1 b1 z) (writen1 b2).

Definition writen3 (b1 b2 b3 : byte) (z : ioEncWriter) : result :=
  andThen (andThen (writen1 b1 z) (writen1 b2)) (writen1 b3).

Definition writen4 (b1 b2 b3 b4 : byte) (z : ioEncWriter) : result :=
  andThen (andThen (andThen (writen1 b1 z) (writen1 b2)) (writen1 b3)) (writen1 b4).

(** [func (z *ioEncWriter) flush()] *)
Definition flush (z : ioEncWriter) : result :=
  match Flush io with
  | Some f =>
      let '(w', err) := f (w z) in
      let z' := {| w := w'; x := x z |} in
      match err with
      | Some e => Panic (writerError e) z'
      | None => Done z'
      end
  | None => Done z
  end.

(** The calls of the [encWriter] interface are those of the buffer-backed
    sink; a session stops at the first panic. *)
Definition step (k : ByteSink.call) (z : ioEncWriter) : result :=
  match k with
  | ByteSink.WriteUint16 v => writeUint16 v z
  | ByteSink.WriteUint32 v => writeUint32 v z
  | ByteSink.WriteUint64 v => writeUint64 v z
  | ByteSink.Writeb s => writeb s z
  | ByteSink.Writestr s => writestr s z
  | ByteSink.Writen1 b1 => writen1 b1 z
  | ByteSink.Writen2 b1 b2 => writen2 b1 b2 z
  | ByteSink.Writen3 b1 b2 b3 => writen3 b1 b2 b3 z
  | ByteSink.Writen4 b1 b2 b3 b4 => writen4 b1 b2 b3 b4 z
  | ByteSink.Flush => flush z
  end.

Fixpoint run (ks : list ByteSink.call) (z : ioEncWriter) : result :=
  match ks with
  | [] => Done z
  | k :: ks' => andThen (step k z) (run ks')
  end.

(** A writer that takes what it is given: seen through [sent], the bytes
    it has accepted so far, every method appends exactly its argument and
    reports all of it written, without error; flushing sends nothing
    new. *)
Record faithful (sent : W -> list byte) : Prop := {
  faithful_WriteByte : forall c w0,
    exists w1, WriteByte io c w0 = (w1, None) /\ sent w1 = sent w0 ++ [c];
  faithful_WriteString : forall s w0,
    exists w1, WriteString io s w0 = (w1, (Z.of_nat (length s), None))
               /\ sent w1 = sent w0 ++ s;
  faithful_Write : forall p w0,
    exists w1, Write io p w0 = (w1, (Z.of_nat (length p), None))
               /\ sent w1 = sent w0 ++ p;
  faithful_Flush : forall f w0, Flush io = Some f ->
    exists w1, f w0 = (w1, None) /\ sent w1 = sent w0
}.

(** ** Properties of the sink *)

Section faithful_writer.

Variable sent : W -> list byte.
Hypothesis io_faithful : faithful sent.

Lemma writeb_sent (bs : list byte) (z : ioEncWriter) :
  exists z', writeb bs z = Done z' /\ x z' = x z
    /\ sent (w z') = sent (w z) ++ bs.
Proof.
  unfold writeb.
  destruct (faithful_Write sent io_faithful bs (w z)) as (w1 & -> & Hs).
  rewrite Z.eqb_refl. cbn. eexists. split; [reflexivity |]. auto.
Qed.

Lemma writestr_sent (s : list byte) (z : ioEncWriter) :
  exists z', writestr s z = Done z' /\ x z' = x z
    /\ sent (w z') = sent (w z) ++ s.
Proof.
  unfold writestr.
  destruct (faithful_WriteString sent io_faithful s (w z)) as (w1 & -> & Hs).
  rewrite Z.eqb_refl. cbn. eexists. split; [reflexivity |]. auto.
Qed.

Lemma writen1_sent (b1 : byte) (z : ioEncWriter) :
  exists z', writen1 b1 z = Done z' /\ x z' = x z
    /\ sent (w z') = sent (w z) ++ [b1].
Proof.
  unfold writen1.
  destruct (faithful_WriteByte sent io_faithful b1 (w z)) as (w1 & -> & Hs).
  eexists. split; [reflexivity |]. auto.
Qed.

(** The scratch array hands over exactly the big-endian bytes just stored
    in it, whatever an earlier call left there. *)
Lemma scratch16 (xs : list byte) (v : Z) :
  length xs = 8%nat ->
  take 2 (TimeCodec.PutUint16 xs 0 v) = TimeCodec.bigen16 v.
Proof.
  intros Hx. do 8 (destruct xs as [| ? xs]; [discriminate Hx |]). reflexivity.
Qed.

Lemma scratch32 (xs : list byte) (v : Z) :
  length xs = 8%nat ->
  take 4 (TimeCodec.PutUint32 xs 0 v) = TimeCodec.bigen32 v.
Proof.
  intros Hx. do 8 (destruct xs as [| ? xs]; [discriminate Hx |]). reflexivity.
Qed.

Lemma scratch64 (xs : list byte) (v : Z) :
  length xs = 8%nat ->
  take 8 (TimeCodec.PutUint64 xs 0 v) = TimeCodec.bigen64 v.
Proof.
  intros Hx. do 8 (destruct xs as [| ? xs]; [discriminate Hx |]).
  destruct xs; [reflexivity | discriminate Hx].
Qed.

Lemma step_sent (k : ByteSink.call) (z : ioEncWriter) :
  length (x z) = 8%nat ->
  exists z', step k z = Done z' /\ length (x z') = 8%nat
    /\ sent (w z') = sent (w z) ++ ByteSink.bytes_of_call k.
Proof.
  intros Hx. destruct k; cbn [step ByteSink.bytes_of_call].
  - unfold writeUint16.
    destruct (writeb_sent (take 2 (TimeCodec.PutUint16 (x z) 0 v))
                {| w := w z; x := TimeCodec.PutUint16 (x z) 0 v |})
      as (z' & Hr & Hx' & Hs).
    cbn [w x] in *. exists z'. split; [exact Hr |].
    rewrite Hx', TimeCodec.length_PutUint16, Hs, (scratch16 _ _ Hx). auto.
  - unfold writeUint32.
    destruct (writeb_sent (take 4 (TimeCodec.PutUint32 (x z) 0 v))
                {| w := w z; x := TimeCodec.PutUint32 (x z) 0 v |})
      as (z' & Hr & Hx' & Hs).
    cbn [w x] in *. exists z'. split; [exact Hr |].
    rewrite Hx', TimeCodec.length_PutUint32, Hs, (scratch32 _ _ Hx). auto.
  - unfold writeUint64.
    destruct (writeb_sent (take 8 (TimeCodec.PutUint64 (x z) 0 v))
                {| w := w z; x := TimeCodec.PutUint64 (x z) 0 v |})
      as (z' & Hr & Hx' & Hs).
    cbn [w x] in *. exists z'. split; [exact Hr |].
    rewrite Hx', TimeCodec.length_PutUint64, Hs, (scratch64 _ _ Hx). auto.
  - destruct (writeb_sent s z) as (z' & Hr & Hx' & Hs).
    exists z'. rewrite Hx'. auto.
  - destruct (writestr_sent s z) as (z' & Hr & Hx' & Hs).
    exists z'. rewrite Hx'. auto.
  - destruct (writen1_sent b1 z) as (z' & Hr & Hx' & Hs).
    exists z'. rewrite Hx'. auto.
  - unfold writen2.
    destruct (writen1_sent b1 z) as (z1 & -> & Hx1 & Hs1). cbn [andThen].
    destruct (writen1_sent b2 z1) as (z2 & -> & Hx2 & Hs2).
    exists z2. split; [reflexivity |]. rewrite Hx2, Hx1, Hs2, Hs1, <- app_assoc. auto.
  - unfold writen3.
    destruct (writen1_sent b1 z) as (z1 & -> & Hx1 & Hs1). cbn [andThen].
    destruct (writen1_sent b2 z1) as (z2 & -> & Hx2 & Hs2). cbn [andThen].
    destruct (writen1_sent b3 z2) as (z3 & -> & Hx3 & Hs3).
    exists z3. split; [reflexivity |].
    rewrite Hx3, Hx2, Hx1, Hs3, Hs2, Hs1, <- !app_assoc. auto.
  - unfold writen4.
    destruct (writen1_sent b1 z) as (z1 & -> & Hx1 & Hs1). cbn [andThen].
    destruct (writen1_sent b2 z1) as (z2 & -> & Hx2 & Hs2). cbn [andThen].
    destruct (writen1_sent b3 z2) as (z3 & -> & Hx3 & Hs3). cbn [andThen].
    destruct (writen1_sent b4 z3) as (z4 & -> & Hx4 & Hs4).
    exists z4. split; [reflexivity |].
    rewrite Hx4, Hx3, Hx2, Hx1, Hs4, Hs3, Hs2, Hs1, <- !app_assoc. auto.
  - unfold flush. destruct (Flush io) as [f |] eqn:Hf.
    + destruct (faithful_Flush sent io_faithful f (w z) Hf) as (w1 & -> & Hs).
      eexists. split; [reflexivity |]. cbn [w x]. rewrite Hs, app_nil_r. auto.
    + exists z. rewrite app_nil_r. auto.
Qed.

Lemma run_sent (ks : list ByteSink.call) : forall z : ioEncWriter,
  length (x z) = 8%nat ->
  exists z', run ks z = Done z' /\ length (x z') = 8%nat
    /\ sent (w z') = sent (w z) ++ concat (ByteSink.bytes_of_call <$> ks).
Proof.
  induction ks as [| k ks IH]; intros z Hx; cbn [run].
  - exists z. cbn. rewrite app_nil_r. auto.
  - destruct (step_sent k z Hx) as (z1 & -> & Hx1 & Hs1). cbn [andThen].
    destruct (IH z1 Hx1) as (z2 & Hr & Hx2 & Hs2).
    exists z2. split; [exact Hr |]. split; [exact Hx2 |].
    rewrite Hs2, Hs1. cbn. rewrite <- app_assoc. reflexivity.
Qed.

(** A session on a writer that takes what it is given: the calls run
    without a panic, and the writer has been sent exactly the bytes of
    the calls, in order, integers big-endian; what an earlier call left
    in the scratch array never reaches the writer. *)
Theorem stream_session_output (ks : list ByteSink.call) (z : ioEncWriter) :
  length (x z) = 8%nat ->
  exists z', run ks z = Done z'
    /\ sent (w z') = sent (w z) ++ concat (ByteSink.bytes_of_call <$> ks).
Proof.
  intros Hx. destruct (run_sent ks z Hx) as (z' & Hr & _ & Hs). eauto.
Qed.

(** The two sinks are interchangeable. The same calls, ended by a flush,
    leave in the caller's slot of the buffer-backed sink the very bytes
    that a writer which takes what it is given has been sent. *)
Theorem sinks_agree (ks : list ByteSink.call) (o : option ByteSink.slice)
    (z : ioEncWriter) :
  (forall s, o = Some s -> 0 <= ByteSink.len s <= ByteSink.cap s) ->
  length (x z) = 8%nat -> sent (w z) = [] ->
  exists zb zb' z',
    ByteSink.newBytesEncWriter o = Some zb
    /\ ByteSink.run (ks ++ [ByteSink.Flush]) zb = Some zb'
    /\ run (ks ++ [ByteSink.Flush]) z = Done z'
    /\ take (Z.to_nat (ByteSink.len (ByteSink.out zb'))) (ByteSink.arr (ByteSink.out zb'))
       = sent (w z').
Proof.
  intros Hwf Hx Hs0.
  destruct (ByteSink.newBytesEncWriter_ok o Hwf) as (zb & Hzb & Hok & Hlive).
  destruct (ByteSink.run_content (ks ++ [ByteSink.Flush]) zb Hok)
    as (zb' & Hrb & Hokb & Hlb).
  destruct (run_sent (ks ++ [ByteSink.Flush]) z Hx) as (z' & Hr & _ & Hs).
  exists zb, zb', z'. split; [exact Hzb |]. split; [exact Hrb |]. split; [exact Hr |].
  rewrite Hs, Hs0, <- Hlive, <- Hlb.
  exact (ByteSink.flushed_out ks zb zb' Hok Hrb).
Qed.

End faithful_writer.
End stream.

End StreamSink.

(** A writer to run the sink on. *)
Module StreamSample.
Import StreamSink.
Local Open Scope Z_scope.

(** A writer that appends to a list of bytes and has a [Flush]. *)
Definition list_writer : ioEncWriterWriter (W := list byte) :=
  {| WriteByte := fun c w0 => (w0 ++ [c], None);
     WriteString := fun s w0 => (w0 ++ s, (Z.of_nat (length s), None));
     Write := fun p w0 => (w0 ++ p, (Z.of_nat (length p), None));
     Flush := Some (fun w0 => (w0, None)) |}.

Lemma list_writer_faithful : faithful list_writer (fun w0 => w0).
Proof.
  split.
  - intros c w0. eexists. split; reflexivity.
  - intros s w0. eexists. split; reflexivity.
  - intros p w0. eexists. split; reflexivity.
  - intros f w0 [= <-]. eexists. split; reflexivity.
Qed.

(** Two integers through a scratch array that still holds an earlier
    value, then a byte and a flush. *)
Lemma stream_session_output_witness :
  exists z',
    run list_writer
      [ByteSink.WriteUint16 258; ByteSink.WriteUint32 1; ByteSink.Writen1 7;
       ByteSink.Flush]
      {| w := []; x := [9; 9; 9; 9; 9; 9; 9; 9] |} = Done z'
    /\ w z' = [] ++ [1; 2; 0; 0; 0; 1; 7].
Proof.
  apply (stream_session_output list_writer (fun w0 => w0) list_writer_faithful
           [ByteSink.WriteUint16 258; ByteSink.WriteUint32 1; ByteSink.Writen1 7;
            ByteSink.Flush]
           {| w := []; x := [9; 9; 9; 9; 9; 9; 9; 9] |}).
  reflexivity.
Defined.

Lemma sinks_agree_witness :
  exists zb zb' z',
    ByteSink.newBytesEncWriter None = Some zb
    /\ ByteSink.run ([ByteSink.WriteUint16 258; ByteSink.Writestr [104; 105]]
                     ++ [ByteSink.Flush]) zb = Some zb'
    /\ run list_writer ([ByteSink.WriteUint16 258; ByteSink.Writestr [104; 105]]
                        ++ [ByteSink.Flush])
         {| w := []; x := replicate 8 0 |} = Done z'
    /\ take (Z.to_nat (ByteSink.len (ByteSink.out zb'))) (ByteSink.arr (ByteSink.out zb'))
       = w z'.
Proof.
  apply (sinks_agree list_writer (fun w0 => w0) list_writer_faithful
           [ByteSink.WriteUint16 258; ByteSink.Writestr [104; 105]] None
           {| w := []; x := replicate 8 0 |}).
  - intros s Hs. discriminate Hs.
  - reflexivity.
  - reflexivity.
Defined.

End StreamSample.

(* ===================================================================== *)
(** * Types as [reflect] presents them                                    *)
(* ===================================================================== *)

(** The part of package [reflect] the encoder relies on. The module is
    never imported: its names are always written [reflect.Bool],
    [reflect.Slice], ... as in the source. *)
Module reflect.

(** [reflect.Kind] *)
Inductive Kind :=
| Invalid | Bool | Int | Int8 | Int16 | Int32 | Int64
| Uint | Uint8 | Uint16 | Uint32 | Uint64 | Uintptr
| Float32 | Float64 | Complex64 | Complex128
| Array | Chan | Func | Interface | Map | Ptr | Slice | String | Struct
| UnsafePointer.

#[global] Instance Kind_eq_dec : EqDecision Kind.
Proof. solve_decision. Defined.

(** The identity of a Go type, which [==] on [reflect.Type] compares: a
    predeclared type, a composite type literal, or a defined (named) type
    over its underlying type. Struct, interface and the remaining type
    literals are told apart by a key. *)
Inductive Type_ :=
| Predeclared (k : Kind)
| SliceOf (elem : Type_)
| ArrayOf (n : nat) (elem : Type_)
| MapOf (key elem : Type_)
| PtrTo (elem : Type_)
| Literal (k : Kind) (id : string)
| Defined (name : string) (underlying : Type_).

#[global] Instance Type_eq_dec : EqDecision Type_.
Proof. solve_decision. Defined.

(** [rt.Kind()] *)
Fixpoint KindOf (rt : Type_) : Kind :=
  match rt with
  | Predeclared k => k
  | SliceOf _ => Slice
  | ArrayOf _ _ => Array
  | MapOf _ _ => Map
  | PtrTo _ => Ptr
  | Literal k _ => k
  | Defined _ u => KindOf u
  end.

(** [rt.Key()], for a type of kind [Map] ([None]: the call panics). *)
Fixpoint Key (rt : Type_) : option Type_ :=
  match rt with
  | MapOf k _ => Some k
  | Defined _ u => Key u
  | _ => None
  end.

Definition kind_code (k : Kind) : nat :=
  match k with
  | Invalid => 0 | Bool => 1 | Int => 2 | Int8 => 3 | Int16 => 4 | Int32 => 5
  | Int64 => 6 | Uint => 7 | Uint8 => 8 | Uint16 => 9 | Uint32 => 10
  | Uint64 => 11 | Uintptr => 12 | Float32 => 13 | Float64 => 14
  | Complex64 => 15 | Complex128 => 16 | Array => 17 | Chan => 18 | Func => 19
  | Interface => 20 | Map => 21 | Ptr => 22 | Slice => 23 | String => 24
  | Struct => 25 | UnsafePointer => 26
  end.

Definition kind_of_code (n : nat) : Kind :=
  match n with
  | 1 => Bool | 2 => Int | 3 => Int8 | 4 => Int16 | 5 => Int32
  | 6 => Int64 | 7 => Uint | 8 => Uint8 | 9 => Uint16 | 10 => Uint32
  | 11 => Uint64 | 12 => Uintptr | 13 => Float32 | 14 => Float64
  | 15 => Complex64 | 16 => Complex128 | 17 => Array | 18 => Chan | 19 => Func
  | 20 => Interface | 21 => Map | 22 => Ptr | 23 => Slice | 24 => String
  | 25 => Struct | 26 => UnsafePointer | _ => Invalid
  end.

Lemma kind_of_code_kind_code (k : Kind) : kind_of_code (kind_code k) = k.
Proof. destruct k; reflexivity. Qed.

Fixpoint type_tree (rt : Type_) : gen_tree (nat + string) :=
  match rt with
  | Predeclared k => GenNode 0 [GenLeaf (inl (kind_code k))]
  | SliceOf e => GenNode 1 [type_tree e]
  | ArrayOf n e => GenNode 2 [GenLeaf (inl n); type_tree e]
  | MapOf k e => GenNode 3 [type_tree k; type_tree e]
  | PtrTo e => GenNode 4 [type_tree e]
  | Literal k id => GenNode 5 [GenLeaf (inl (kind_code k)); GenLeaf (inr id)]
  | Defined name u => GenNode 6 [GenLeaf (inr name); type_tree u]
  end.

Fixpoint tree_type (t : gen_tree (nat + string)) : option Type_ :=
  match t with
  | GenNode 0 [GenLeaf (inl c)] => Some (Predeclared (kind_of_code c))
  | GenNode 1 [e] => SliceOf <$> tree_type e
  | GenNode 2 [GenLeaf (inl n); e] => ArrayOf n <$> tree_type e
  | GenNode 3 [k; e] => k' ← tree_type k; e' ← tree_type e; Some (MapOf k' e')
  | GenNode 4 [e] => PtrTo <$> tree_type e
  | GenNode 5 [GenLeaf (inl c); GenLeaf (inr id)] =>
      Some (Literal (kind_of_code c) id)
  | GenNode 6 [GenLeaf (inr name); u] => Defined name <$> tree_type u
  | _ => None
  end.

Lemma tree_type_type_tree (rt : Type_) : tree_type (type_tree rt) = Some rt.
Proof.
  induction rt as [k | e IH | n e IH | k IHk e IHe | e IH | k id | name u IH];
    cbn; rewrite ?kind_of_code_kind_code, ?IH, ?IHk, ?IHe; reflexivity.
Qed.

#[global] Instance Type_countable : Countable Type_ :=
  inj_countable type_tree tree_type tree_type_type_tree.

End reflect.

(* ===================================================================== *)
(** * The extension registry                                              *)
(* ===================================================================== *)

Module Registry.
Section registry.

(** The registered functions, [func(reflect.Value) ([]byte, error)]: the
    registry stores them and tests them against nil, nothing else. *)
Context {F : Type}.

(** [mapAccessThreshold] is a constant declared outside this file. *)
Variable mapAccessThreshold : nat.

(** [encExtTagFn]; a nil [fn] is [None]. *)
Record encExtTagFn := { fn : option F; tag : byte }.

(** [encExtTypeTagFn]; the zero value has a nil [rt]. *)
Record encExtTypeTagFn := { rt : option reflect.Type_; tagFn : encExtTagFn }.

Definition zeroTagFn : encExtTagFn := {| fn := None; tag := 0%Z |}.
Definition zeroTypeTagFn : encExtTypeTagFn := {| rt := None; tagFn := zeroTagFn |}.

(** A [[]encExtTypeTagFn]: backing array (its length is the capacity) and
    visible length. *)
Record extSlice := { arr : list encExtTypeTagFn; len : nat }.

Definition cap (s : extSlice) : nat := length (arr s).

(** [encHandle]. A nil [exts] is [None]; a nil [extFuncs] reads as the
    empty map, and [addEncodeExt] allocates it before the first store. *)
Record encHandle := {
  extFuncs : gmap reflect.Type_ encExtTagFn;
  exts : option extSlice
}.

Definition zeroHandle : encHandle := {| extFuncs := ∅; exts := None |}.

(** [make([]encExtTypeTagFn, n, c)] panics when [c < n]. *)
Definition make (n c : nat) : option extSlice :=
  if (n <=? c)%nat then Some {| arr := replicate c zeroTypeTagFn; len := n |}
  else None.

(** [s[0:n]] panics when [n] exceeds the capacity. *)
Definition reslice (s : extSlice) (n : nat) : option extSlice :=
  if (n <=? cap s)%nat then Some {| arr := arr s; len := n |} else None.

(** [s[i] = x] panics when [i] is not below the visible length. *)
Definition store (s : extSlice) (i : nat) (x : encExtTypeTagFn) : option extSlice :=
  if (i <? len s)%nat then Some {| arr := <[i := x]> (arr s); len := len s |}
  else None.

(** The order in which [range] walks a map is not specified: it is some
    enumeration of the entries. *)
Variable rangeOrder :
  gmap reflect.Type_ encExtTagFn -> list (reflect.Type_ * encExtTagFn).
Hypothesis rangeOrder_perm : forall m, rangeOrder m ≡ₚ map_to_list m.

Definition entry (kv : reflect.Type_ * encExtTagFn) : encExtTypeTagFn :=
  {| rt := Some kv.1; tagFn := kv.2 |}.

(** [var i int; for k, v := range o.extFuncs { o.exts[i] = ...; i++ }] *)
Fixpoint fill (kvs : list (reflect.Type_ * encExtTagFn)) (i : nat) (s : extSlice)
  : option extSlice :=
  match kvs with
  | [] => Some s
  | kv :: kvs' => s' ← store s i (entry kv); fill kvs' (S i) s'
  end.

(** [func (o *encHandle) addEncodeExt(rt reflect.Type, tag byte, fn ...)] *)
Definition addEncodeExt (rt0 : reflect.Type_) (tag0 : byte) (fn0 : option F)
    (o : encHandle) : option encHandle :=
  let '(exts0, extFuncs0) :=
    match exts o with
    | None => ({| arr := replicate 8 zeroTypeTagFn; len := 0 |}, ∅)
    | Some s => (s, extFuncs o)
    end in
  let extFuncs1 := delete rt0 extFuncs0 in
  let extFuncs2 :=
    match fn0 with
    | Some _ => <[rt0 := {| fn := fn0; tag := tag0 |}]> extFuncs1
    | None => extFuncs1
    end in
  let leno := size extFuncs2 in
  exts1 ← (if (cap exts0 <? leno)%nat then make leno (leno * 3 / 2)
           else reslice exts0 leno);
  exts2 ← fill (rangeOrder extFuncs2) 0 exts1;
  Some {| extFuncs := extFuncs2; exts := Some exts2 |}.

(** [o.exts[0:len(o.exts)]], empty for a nil slice. *)
Definition visible (o : encHandle) : list encExtTypeTagFn :=
  match exts o with
  | None => []
  | Some s => take (len s) (arr s)
  end.

(** [for i := 0; i < l; i++ { if o.exts[i].rt == rt { ... return } }] and
    the final bare [return] of the zero results. *)
Fixpoint scan (es : list encExtTypeTagFn) (rt0 : reflect.Type_) : byte * option F :=
  match es with
  | [] => (0%Z, None)
  | e :: es' =>
      if decide (rt e = Some rt0) then (tag (tagFn e), fn (tagFn e))
      else scan es' rt0
  end.

(** [func (o *encHandle) getEncodeExt(rt reflect.Type) (tag byte, fn ...)] *)
Definition getEncodeExt (rt0 : reflect.Type_) (o : encHandle) : byte * option F :=
  let l := length (visible o) in
  if (l =? 0)%nat then (0%Z, None)
  else if (l <? mapAccessThreshold)%nat then scan (visible o) rt0
  else
    let x := default zeroTagFn (extFuncs o !! rt0) in
    (tag x, fn x).

(** A run of registrations with non-nil functions. *)
Fixpoint register_all (regs : list (reflect.Type_ * byte * F)) (o : encHandle)
  : option encHandle :=
  match regs with
  | [] => Some o
  | (t, g, f) :: regs' => o' ← addEncodeExt t g (Some f) o; register_all regs' o'
  end.

(** The two views agree: the visible list enumerates the map. *)
Definition views_agree (o : encHandle) : Prop :=
  visible o ≡ₚ entry <$> map_to_list (extFuncs o).

(** The map as [addEncodeExt] sees it: reset while [exts] is nil. *)
Definition live_funcs (o : encHandle) : gmap reflect.Type_ encExtTagFn :=
  match exts o with
  | None => ∅
  | Some _ => extFuncs o
  end.

(** The visible length of [exts] lies within its capacity. *)
Definition slices_ok (o : encHandle) : Prop :=
  forall s, exts o = Some s -> (len s <= cap s)%nat.

(** A run of calls of [addEncodeExt], registrations and removals alike. *)
Fixpoint addEncodeExt_all (ops : list (reflect.Type_ * byte * option F))
    (o : encHandle) : option encHandle :=
  match ops with
  | [] => Some o
  | (t, g, f) :: ops' => o' ← addEncodeExt t g f o; addEncodeExt_all ops' o'
  end.

(** The last call of a run that names the type [t], if there is one. *)
Fixpoint latest (ops : list (reflect.Type_ * byte * option F)) (t : reflect.Type_)
  : option (byte * option F) :=
  match ops with
  | [] => None
  | (t0, g, f) :: ops' =>
      match latest ops' t with
      | Some r => Some r
      | None => if decide (t0 = t) then Some (g, f) else None
      end
  end.

(** ** Properties of the registry *)

Lemma fill_ok (kvs : list (reflect.Type_ * encExtTagFn)) :
  forall (i : nat) (s : extSlice),
  (i + length kvs <= len s)%nat -> (len s <= cap s)%nat ->
  exists s', fill kvs i s = Some s'
    /\ len s' = len s /\ cap s' = cap s
    /\ take (i + length kvs) (arr s') = take i (arr s) ++ (entry <$> kvs).
Proof.
  induction kvs as [| kv kvs IH]; intros i s Hfit Hcap; cbn [fill length].
  - exists s. rewrite Nat.add_0_r, app_nil_r. auto.
  - cbn [length] in Hfit. unfold store.
    destruct (Nat.ltb_spec i (len s)) as [Hi | ?]; [| lia].
    cbn [mbind option_bind].
    set (s1 := {| arr := <[i := entry kv]> (arr s); len := len s |}).
    assert (Hcap1 : cap s1 = cap s) by (unfold cap, s1; cbn; apply length_insert).
    destruct (IH (S i) s1) as (s' & Hf & Hl & Hc & Htake).
    + subst s1; cbn; lia.
    + rewrite Hcap1. subst s1; cbn; lia.
    + exists s'. split; [exact Hf |]. split; [exact Hl |].
      split; [congruence |].
      replace (i + S (length kvs))%nat with (S i + length kvs)%nat by lia.
      rewrite Htake. subst s1. cbn [arr].
      unfold cap in Hcap.
      rewrite (take_S_r _ i (entry kv)) by (apply list_lookup_insert_eq; lia).
      rewrite take_insert_ge by lia.
      rewrite <- app_assoc. reflexivity.
Qed.

(** [addEncodeExt] never panics; it leaves the map with the entry for
    [rt0] replaced or removed and rebuilds the list from it. *)
Lemma addEncodeExt_ok (rt0 : reflect.Type_) (tag0 : byte) (fn0 : option F)
    (o : encHandle) :
  (forall s, exts o = Some s -> (len s <= cap s)%nat) ->
  exists o', addEncodeExt rt0 tag0 fn0 o = Some o'
    /\ extFuncs o' =
         match fn0 with
         | Some _ => <[rt0 := {| fn := fn0; tag := tag0 |}]> (delete rt0 (live_funcs o))
         | None => delete rt0 (live_funcs o)
         end
    /\ live_funcs o' = extFuncs o'
    /\ views_agree o'
    /\ (forall s, exts o' = Some s -> (len s <= cap s)%nat).
Proof.
  intros Hwf. unfold addEncodeExt, live_funcs.
  set (e0 := match exts o with
             | None => ({| arr := replicate 8 zeroTypeTagFn; len := 0 |}, ∅)
             | Some s => (s, extFuncs o)
             end).
  assert (He0 : e0.2 = match exts o with None => ∅ | Some _ => extFuncs o end)
    by (subst e0; destruct (exts o); reflexivity).
  destruct e0 as [exts0 extFuncs0]. cbn [snd] in He0. subst extFuncs0.
  set (m := match fn0 with
            | Some _ => <[rt0 := _]> (delete rt0 _)
            | None => delete rt0 _
            end).
  assert (Hlen : length (rangeOrder m) = size m).
  { rewrite (Permutation_length (rangeOrder_perm m)). apply length_map_to_list. }
  assert (Hex : exists s1,
             (if (cap exts0 <? size m)%nat then make (size m) (size m * 3 / 2)
              else reslice exts0 (size m)) = Some s1
             /\ len s1 = size m /\ (len s1 <= cap s1)%nat).
  { destruct (Nat.ltb_spec (cap exts0) (size m)) as [Hlt | Hge].
    - unfold make.
      assert (Hdiv : (size m <= size m * 3 / 2)%nat)
        by (apply Nat.div_le_lower_bound; lia).
      destruct (Nat.leb_spec (size m) (size m * 3 / 2)) as [_ | ?]; [| lia].
      eexists. split; [reflexivity |]. unfold cap. cbn.
      rewrite length_replicate. auto.
    - unfold reslice.
      destruct (Nat.leb_spec (size m) (cap exts0)) as [_ | ?]; [| lia].
      eexists. split; [reflexivity |]. unfold cap in *. cbn. auto. }
  destruct Hex as (s1 & -> & Hl1 & Hc1). cbn [mbind option_bind].
  destruct (fill_ok (rangeOrder m) 0 s1) as (s2 & -> & Hl2 & Hc2 & Htake);
    [cbn; lia | exact Hc1 |].
  cbn [mbind option_bind]. eexists. split; [reflexivity |].
  cbn [extFuncs exts]. split; [reflexivity |]. split; [reflexivity |]. split.
  - unfold views_agree, visible. cbn [exts extFuncs].
    cbn [Nat.add take app] in Htake.
    rewrite Hl2, Hl1, <- Hlen, Htake.
    apply fmap_Permutation, rangeOrder_perm.
  - intros s [= <-]. lia.
Qed.

(** Lookup reads the map, whichever of the two views it consults. *)
Lemma scan_found (es : list encExtTypeTagFn) (rt0 : reflect.Type_) (x : encExtTagFn) :
  (forall e, e ∈ es -> rt e = Some rt0 -> tagFn e = x) ->
  (exists e, e ∈ es /\ rt e = Some rt0) ->
  scan es rt0 = (tag x, fn x).
Proof.
  induction es as [| e es IH]; intros Hall [e' [Hin Hrt]]; cbn [scan].
  - inversion Hin.
  - destruct (decide (rt e = Some rt0)) as [Heq | Hne].
    + rewrite (Hall e) by (auto; left). reflexivity.
    + apply IH.
      * intros e1 H1. apply Hall. right. exact H1.
      * exists e'. split; [| exact Hrt].
        apply elem_of_cons in Hin as [-> | Hin]; [contradiction | exact Hin].
Qed.

Lemma scan_missing (es : list encExtTypeTagFn) (rt0 : reflect.Type_) :
  (forall e, e ∈ es -> rt e <> Some rt0) -> scan es rt0 = (0%Z, None).
Proof.
  induction es as [| e es IH]; intros Hall; cbn [scan]; [reflexivity |].
  destruct (decide (rt e = Some rt0)) as [Heq | Hne].
  - exfalso. apply (Hall e); [left | exact Heq].
  - apply IH. intros e1 H1. apply Hall. right. exact H1.
Qed.

Lemma elem_of_visible (o : encHandle) (e : encExtTypeTagFn) :
  views_agree o ->
  e ∈ visible o <-> exists k v, e = entry (k, v) /\ extFuncs o !! k = Some v.
Proof.
  intros Hv. unfold views_agree in Hv. rewrite Hv, list_elem_of_fmap. split.
  - intros [[k v] [-> Hin]]. exists k, v. split; [reflexivity |].
    apply elem_of_map_to_list. exact Hin.
  - intros (k & v & -> & Hl). exists (k, v). split; [reflexivity |].
    apply elem_of_map_to_list. exact Hl.
Qed.

Lemma getEncodeExt_reads_map (rt0 : reflect.Type_) (o : encHandle) :
  views_agree o ->
  getEncodeExt rt0 o =
    match extFuncs o !! rt0 with
    | Some x => (tag x, fn x)
    | None => (0%Z, None)
    end.
Proof.
  intros Hv. unfold getEncodeExt.
  destruct (Nat.eqb_spec (length (visible o)) 0) as [Hz | Hnz].
  - assert (Hnone : extFuncs o !! rt0 = None).
    { destruct (extFuncs o !! rt0) as [x |] eqn:Hl; [| reflexivity].
      assert (Hin : entry (rt0, x) ∈ visible o)
        by (apply elem_of_visible; eauto).
      apply nil_length_inv in Hz. rewrite Hz in Hin. inversion Hin. }
    rewrite Hnone. reflexivity.
  - destruct (length (visible o) <? mapAccessThreshold)%nat.
    + destruct (extFuncs o !! rt0) as [x |] eqn:Hl.
      * apply scan_found.
        -- intros e He Hrt. apply (elem_of_visible o e Hv) in He as (k & v & -> & Hk).
           cbn in Hrt. injection Hrt as ->. cbn. congruence.
        -- exists (entry (rt0, x)). split; [| reflexivity].
           apply elem_of_visible; eauto.
      * apply scan_missing.
        intros e He Hrt. apply (elem_of_visible o e Hv) in He as (k & v & -> & Hk).
        cbn in Hrt. injection Hrt as ->. congruence.
    + destruct (extFuncs o !! rt0); reflexivity.
Qed.

(** What a run of registrations leaves in the map: types it does not
    name are untouched, and each type it names (once) maps to the tag and
    function registered for it. *)
Lemma register_all_ok (regs : list (reflect.Type_ * byte * F)) :
  forall o : encHandle, slices_ok o ->
  exists o', register_all regs o = Some o'
    /\ slices_ok o'
    /\ (forall t, t ∉ regs.*1.*1 -> live_funcs o' !! t = live_funcs o !! t)
    /\ (NoDup regs.*1.*1 -> forall t g f, (t, g, f) ∈ regs ->
          live_funcs o' !! t = Some {| fn := Some f; tag := g |}).
Proof.
  induction regs as [| [[t0 g0] f0] regs IH]; intros o Hok; cbn [register_all].
  - exists o. split; [reflexivity |]. split; [exact Hok |]. split; [reflexivity |].
    intros _ t g f Hin. inversion Hin.
  - destruct (addEncodeExt_ok t0 g0 (Some f0) o Hok) as (o1 & -> & Hm1 & Hlive1 & _ & Hok1).
    cbn [mbind option_bind].
    destruct (IH o1 Hok1) as (o' & Hr & Hok' & Hother & Hin).
    exists o'. split; [exact Hr |]. split; [exact Hok' |].
    rewrite Hlive1, Hm1 in Hother. cbn [fmap list_fmap fst]. split.
    + intros t Ht. apply not_elem_of_cons in Ht as [Hne Ht].
      rewrite (Hother t Ht), lookup_insert_ne, lookup_delete_ne by congruence.
      reflexivity.
    + intros Hnd t g f Hmem. apply NoDup_cons in Hnd as [Hfresh Hnd].
      apply elem_of_cons in Hmem as [[= -> -> ->] | Hmem].
      * rewrite (Hother t0 Hfresh). apply lookup_insert_eq.
      * exact (Hin Hnd t g f Hmem).
Qed.

(** C6. Register the distinct types T1..Tk, each with a non-nil function,
    on a fresh registry, then register Tj with a nil function. No step
    panics; afterwards looking Tj up finds nothing (tag 0, nil function),
    every other registered type is still found with the tag and function
    it was registered with, and a lookup on the empty registry finds
    nothing. This holds in whatever order [range] walks the map. *)
Theorem registry_remove (regs : list (reflect.Type_ * byte * F))
    (tj : reflect.Type_) (gj : byte) :
  NoDup regs.*1.*1 ->
  exists h h',
    register_all regs zeroHandle = Some h
    /\ addEncodeExt tj gj None h = Some h'
    /\ getEncodeExt tj h' = (0%Z, None)
    /\ (forall t g f, (t, g, f) ∈ regs -> t <> tj ->
          getEncodeExt t h' = (g, Some f))
    /\ (forall t, getEncodeExt t zeroHandle = (0%Z, None)).
Proof.
  intros Hnd.
  assert (Hz : slices_ok zeroHandle) by (intros s Hs; discriminate Hs).
  destruct (register_all_ok regs zeroHandle Hz) as (h & Hr & Hok & _ & Hin).
  destruct (addEncodeExt_ok tj gj None h Hok) as (h' & Ha & Hm & _ & Hv & _).
  exists h, h'. split; [exact Hr |]. split; [exact Ha |]. split; [| split].
  - rewrite (getEncodeExt_reads_map tj h' Hv), Hm, lookup_delete_eq. reflexivity.
  - intros t g f Hmem Hne.
    rewrite (getEncodeExt_reads_map t h' Hv), Hm, lookup_delete_ne by congruence.
    rewrite (Hin Hnd t g f Hmem). reflexivity.
  - intros t. reflexivity.
Qed.

(** After any mutation the two views agree, and a lookup gives the map's
    answer whichever view the threshold selects. *)
Theorem views_agree_after_mutation (rt0 : reflect.Type_) (tag0 : byte)
    (fn0 : option F) (o : encHandle) :
  slices_ok o ->
  exists o', addEncodeExt rt0 tag0 fn0 o = Some o'
    /\ views_agree o'
    /\ forall t, getEncodeExt t o' =
          match extFuncs o' !! t with
          | Some x => (tag x, fn x)
          | None => (0%Z, None)
          end.
Proof.
  intros Hok.
  destruct (addEncodeExt_ok rt0 tag0 fn0 o Hok) as (o' & Ha & _ & _ & Hv & _).
  exists o'. split; [exact Ha |]. split; [exact Hv |].
  intros t. exact (getEncodeExt_reads_map t o' Hv).
Qed.

(** What a run of calls leaves in the map: for each type, what the last
    call naming it asked for. *)
Lemma addEncodeExt_all_ok (ops : list (reflect.Type_ * byte * option F)) :
  forall o : encHandle, slices_ok o ->
  exists o', addEncodeExt_all ops o = Some o'
    /\ slices_ok o'
    /\ (ops <> [] -> views_agree o' /\ live_funcs o' = extFuncs o')
    /\ forall t, live_funcs o' !! t =
         match latest ops t with
         | Some (g, Some f) => Some {| fn := Some f; tag := g |}
         | Some (_, None) => None
         | None => live_funcs o !! t
         end.
Proof.
  induction ops as [| [[t0 g0] f0] ops IH]; intros o Hok; cbn [addEncodeExt_all latest].
  - exists o. split; [reflexivity |]. split; [exact Hok |]. split; [congruence |].
    reflexivity.
  - destruct (addEncodeExt_ok t0 g0 f0 o Hok) as (o1 & -> & Hm1 & Hlive1 & Hv1 & Hok1).
    cbn [mbind option_bind].
    destruct (IH o1 Hok1) as (o' & Hr & Hok' & Hv' & Hlook).
    exists o'. split; [exact Hr |]. split; [exact Hok' |]. split.
    + intros _. destruct ops as [| op ops]; [| apply Hv'; discriminate].
      injection Hr as <-. auto.
    + intros t. rewrite (Hlook t).
      destruct (latest ops t) as [[g [f |]] |]; try reflexivity.
      rewrite Hlive1, Hm1.
      destruct (decide (t0 = t)) as [-> | Hne].
      * destruct f0; [apply lookup_insert_eq | apply lookup_delete_eq].
      * destruct f0; rewrite ?lookup_insert_ne, lookup_delete_ne by congruence;
          reflexivity.
Qed.

(** The last call wins. After any run of registrations and removals on a
    fresh registry, in any order and with types named as often as one
    likes, no call has panicked, a lookup finds for each type the tag and
    function of the last call that named it, or nothing when that call
    was a removal or no call named the type, and the list view holds no
    type twice. *)
Theorem latest_call_wins (ops : list (reflect.Type_ * byte * option F)) :
  exists o', addEncodeExt_all ops zeroHandle = Some o'
    /\ (forall t, getEncodeExt t o' =
          match latest ops t with
          | Some (g, Some f) => (g, Some f)
          | _ => (0%Z, None)
          end)
    /\ NoDup (rt <$> visible o').
Proof.
  assert (Hz : slices_ok zeroHandle) by (intros s Hs; discriminate Hs).
  destruct (addEncodeExt_all_ok ops zeroHandle Hz) as (o' & Hr & _ & Hv & Hlook).
  exists o'. split; [exact Hr |].
  destruct ops as [| op ops].
  - injection Hr as <-. split; [reflexivity | constructor].
  - destruct Hv as [Hv Hlive]; [discriminate |]. split.
    + intros t. rewrite (getEncodeExt_reads_map t o' Hv), <- Hlive, (Hlook t).
      destruct (latest (op :: ops) t) as [[g [f |]] |]; reflexivity.
    + unfold views_agree in Hv. rewrite Hv, <- list_fmap_compose.
      change (rt ∘ entry) with ((Some ∘ fst) : reflect.Type_ * encExtTagFn -> _).
      rewrite list_fmap_compose. apply (NoDup_fmap_2 _).
      apply NoDup_fst_map_to_list.
Qed.

End registry.

(** One registration on the empty registry, with threshold 0 (the map
    view in use). *)
Lemma views_agree_after_mutation_witness :
  exists o', addEncodeExt map_to_list (reflect.Predeclared reflect.Int) 7%Z
               (Some (fun n : Z => [n])) zeroHandle = Some o'
    /\ views_agree o'
    /\ forall t, getEncodeExt 0 t o' =
          match extFuncs o' !! t with
          | Some x => (tag x, fn x)
          | None => (0%Z, None)
          end.
Proof.
  apply (views_agree_after_mutation 0 map_to_list
           (fun m => reflexivity (map_to_list m))).
  intros s Hs. discriminate Hs.
Defined.

(** Three registrations on distinct types (the registered functions map
    an integer to a payload), the linear scan in use
    (threshold 4), [range] walking the map in its listing order; the second
    type is then removed. *)
Lemma registry_remove_witness :
  let t1 := reflect.Defined "A" (reflect.Predeclared reflect.Int) in
  let t2 := reflect.Defined "B" (reflect.Predeclared reflect.String) in
  let t3 := reflect.SliceOf (reflect.Predeclared reflect.Uint8) in
  let regs : list (reflect.Type_ * byte * (Z -> list byte)) :=
    [(t1, 1%Z, fun n => [n]); (t2, 2%Z, fun n => [n; n]); (t3, 3%Z, fun _ => [])] in
  exists h h',
    register_all map_to_list regs zeroHandle = Some h
    /\ addEncodeExt map_to_list t2 9%Z None h = Some h'
    /\ getEncodeExt 4 t2 h' = (0%Z, None)
    /\ (forall t g f, (t, g, f) ∈ regs -> t <> t2 ->
          getEncodeExt 4 t h' = (g, Some f))
    /\ (forall t, getEncodeExt 4 t (zeroHandle (F := Z -> list byte)) = (0%Z, None)).
Proof.
  intros t1 t2 t3 regs.
  apply (registry_remove 4 map_to_list (fun m => reflexivity (map_to_list m)) regs t2 9%Z).
  subst regs t1 t2 t3. apply (bool_decide_unpack _). vm_compute. exact I.
Defined.

(** A type registered, removed and registered again under another tag,
    and one registered and removed: the scan finds the last registration
    of the first and nothing for the second. *)
Lemma latest_call_wins_witness :
  let t1 := reflect.Defined "A" (reflect.Predeclared reflect.Int) in
  let t2 := reflect.Defined "B" (reflect.Predeclared reflect.String) in
  let ops : list (reflect.Type_ * byte * option (Z -> list byte)) :=
    [(t1, 1%Z, Some (fun n => [n])); (t2, 2%Z, Some (fun n => [n; n]));
     (t1, 0%Z, None); (t2, 0%Z, None); (t1, 5%Z, Some (fun _ => []))] in
  exists o', addEncodeExt_all map_to_list ops zeroHandle = Some o'
    /\ (forall t, getEncodeExt 4 t o' =
          match latest ops t with
          | Some (g, Some f) => (g, Some f)
          | _ => (0%Z, None)
          end)
    /\ NoDup (rt <$> visible o').
Proof.
  intros t1 t2 ops.
  apply (latest_call_wins 4 map_to_list (fun m => reflexivity (map_to_list m)) ops).
Defined.

End Registry.

(* ===================================================================== *)
(** * The value-traversal engine                                          *)
(* ===================================================================== *)

Module Engine.
#[local] Set Warnings "-register-all".
Section engine.

(** Go's [float32] and [float64] and the two conversions between them
    that the source performs: [rv.Float()] widens a [float32] to
    [float64], and [float32(...)] narrows the result again. The test
    against zero is the one the empty-value check makes. *)
Context {float32 float64 : Type}.
Variable float64_of_float32 : float32 -> float64.
Variable float32_of_float64 : float64 -> float32.
Variable float64_is_zero : float64 -> bool.

(** [charEncoding], declared outside this file; the engine passes these
    two. *)
Inductive charEncoding := c_RAW | c_UTF8.

(** The Go [error] an extension function may return. *)
Definition error := string.

(** A [reflect.Value]: the zero Value, or a type and the data of that
    type's kind.
    - [IntV]: kinds Int, Int8, Int16, Int32, Int64, read by [rv.Int()];
    - [UintV]: kinds Uint, Uint8, Uint16, Uint32, Uint64, read by [rv.Uint()];
    - [SliceV], [MapV], [PtrV], [InterfaceV]: [None] is the nil value;
    - [MapV]: the entries in the order [rv.MapKeys()] lists the keys;
    - [ArrayV]: with the flag [rv.CanAddr()];
    - [OtherV]: every remaining kind (Uintptr, Complex64, Complex128,
      Chan, Func, UnsafePointer). *)
Inductive Value :=
| ZeroV
| BoolV (t : reflect.Type_) (b : bool)
| IntV (t : reflect.Type_) (n : Z)
| UintV (t : reflect.Type_) (n : Z)
| Float32V (t : reflect.Type_) (f : float32)
| Float64V (t : reflect.Type_) (f : float64)
| StringV (t : reflect.Type_) (s : string)
| SliceV (t : reflect.Type_) (elems : option (list Value))
| ArrayV (t : reflect.Type_) (canAddr : bool) (elems : list Value)
| MapV (t : reflect.Type_) (entries : option (list (Value * Value)))
| StructV (t : reflect.Type_) (fields : list Value)
| PtrV (t : reflect.Type_) (elem : option Value)
| InterfaceV (t : reflect.Type_) (elem : option Value)
| OtherV (t : reflect.Type_).

(** [rv.Type()]; on the zero Value every method but [IsValid], [Kind] and
    [String] panics ([None]). *)
Definition TypeOf (rv : Value) : option reflect.Type_ :=
  match rv with
  | ZeroV => None
  | BoolV t _ | IntV t _ | UintV t _ | Float32V t _ | Float64V t _
  | StringV t _ | SliceV t _ | ArrayV t _ _ | MapV t _ | StructV t _
  | PtrV t _ | InterfaceV t _ | OtherV t => Some t
  end.

(** [rv.String()]: the string of a String value; for any other kind Go
    returns a description of the form ["<T Value>"] and does not panic. *)
Definition StringOf (rv : Value) : string :=
  match rv with
  | StringV _ s => s
  | _ => "<Value>"
  end.

(** [rv.Bytes()] of a slice of bytes. *)
Definition BytesOf (elems : list Value) : list byte :=
  (fun v => match v with UintV _ n => n | _ => 0%Z end) <$> elems.

(** [rv.Field(i)]: panics ([None]) off a struct or out of range. *)
Definition Field (rv : Value) (i : Z) : option Value :=
  match rv with
  | StructV _ fields => if (i <? 0)%Z then None else fields !! Z.to_nat i
  | _ => None
  end.

(** [rv.FieldByIndex(index)]: [Field] along the path, stepping through a
    non-nil pointer to a struct after the first index. *)
Fixpoint FieldByIndex_from (first : bool) (rv : Value) (index : list Z)
  : option Value :=
  match index with
  | [] => Some rv
  | x :: index' =>
      let rv' :=
        match first, rv with
        | false, PtrV _ (Some (StructV t fields)) => StructV t fields
        | _, _ => rv
        end in
      f ← Field rv' x; FieldByIndex_from false f index'
  end.

Definition FieldByIndex (rv : Value) (index : list Z) : option Value :=
  match rv with
  | StructV _ _ => FieldByIndex_from true rv index
  | _ => None
  end.

(** [reflect.Type.Elem()] of an array type. *)
Fixpoint ArrayElem (rt : reflect.Type_) : option reflect.Type_ :=
  match rt with
  | reflect.ArrayOf _ e => Some e
  | reflect.Defined _ u => ArrayElem u
  | _ => None
  end.

(** Modelled from the spec: [byteSliceTyp], a variable declared outside
    this file, is the type identity of [[]byte] ("byte-typed slice");
    [byte] is an alias of [uint8]. *)
Definition byteSliceTyp : reflect.Type_ :=
  reflect.SliceOf (reflect.Predeclared reflect.Uint8).

(** ** The trace of an encode

    The wire format ([encoder]) and the sink ([encWriter]) are interfaces;
    what the engine does is the sequence of calls it makes on them, and
    the bytes written are a function of that sequence. *)
Inductive event :=
| encodeBuiltinType (rt : reflect.Type_) (rv : Value)
| encodeNil
| encodeInt (i : Z)
| encodeUint (i : Z)
| encodeBool (b : bool)
| encodeFloat32 (f : float32)
| encodeFloat64 (f : float64)
| encodeExtPreamble (xtag : byte) (length : Z)
| encodeArrayPreamble (length : Z)
| encodeMapPreamble (length : Z)
| encodeString (c : charEncoding) (v : string)
| encodeSymbol (v : string)
| encodeStringBytes (c : charEncoding) (v : list byte)
| writeb (bs : list byte)
| flush.

(** What stops an encode early. *)
Inductive panic :=
| nilDereference
| reflectPanic
| indexOutOfRange
| extError (e : error)
| encErr (rk : reflect.Kind) (rv : Value).

Inductive outcome :=
| Returned
| Panicked (p : panic)
| OutOfFuel.

(** The calls made so far and how the run ended. *)
Definition run := (list event * outcome)%type.

Definition ret : run := ([], Returned).
Definition emit (e : event) : run := ([e], Returned).
Definition throw (p : panic) : run := ([], Panicked p).

(** Sequencing: the second run happens only if the first returned. *)
Definition andThen (r1 r2 : run) : run :=
  match r1.2 with
  | Returned => (r1.1 ++ r2.1, r2.2)
  | _ => r1
  end.

Notation "r1 >> r2" := (andThen r1 r2) (at level 65, right associativity).

Definition sequence (rs : list run) : run := foldr andThen ret rs.

(** [for j := 0; j < l; j++ { body }] *)
Definition forRange (l : nat) (body : nat -> run) : run :=
  sequence (body <$> seq 0 l).

(** ** The collaborators *)

(** A registered extension function: payload ([None] is a nil slice) and
    error ([None] is a nil error). *)
Definition extFn := Value -> option (list byte) * option error.

(** [encodeHandleI]. [newEncoder] yields the wire format whose calls the
    trace records. *)
Record encodeHandleI := {
  getEncodeExt : reflect.Type_ -> byte * option extFn;
  writeExt : bool
}.

(** A field descriptor, as the field-metadata collaborator supplies it
    (the type is declared outside this file): [i > -1] is a direct field
    index, otherwise [is_] is the index path. *)
Record structFieldInfo := {
  encName : string;
  is_ : list Z;
  i : Z;
  omitEmpty : bool
}.

(** The encoder's fields: the handle [e.h]; of the wire format [e.e], the
    answer of its [encodeBuiltinType] hook (when it answers true it has
    written the value itself). *)
Variable h : encodeHandleI.
Variable builtin : reflect.Type_ -> Value -> bool.

(** [getStructFieldInfos], the field-metadata collaborator. *)
Variable getStructFieldInfos : reflect.Type_ -> list structFieldInfo.

(** Modelled from the spec: [isEmptyValue] is declared outside this file;
    a value is empty when it is "boolean false, numeric zero, nil
    pointer/interface, or zero-length array/slice/map/string". *)
Definition isEmptyValue (v : Value) : bool :=
  match v with
  | BoolV _ b => negb b
  | IntV _ n | UintV _ n => (n =? 0)%Z
  | Float32V _ f => float64_is_zero (float64_of_float32 f)
  | Float64V _ f => float64_is_zero f
  | StringV _ s => (String.length s =? 0)%nat
  | SliceV _ None => true
  | SliceV _ (Some elems) | ArrayV _ _ elems => (length elems =? 0)%nat
  | MapV _ None => true
  | MapV _ (Some entries) => (length entries =? 0)%nat
  | PtrV _ elem | InterfaceV _ elem =>
      match elem with None => true | Some _ => false end
  | StructV _ _ | OtherV _ | ZeroV => false
  end.

(** ** Struct encoding *)

(** [s[i] = x] on a Go slice: panics ([None]) out of range. *)
Definition store_at {A : Type} (l : list A) (i : nat) (x : A) : option (list A) :=
  if (i <? length l)%nat then Some (<[i := x]> l) else None.

(** The locals of [encStruct]'s first loop. *)
Record fieldLoopState := {
  rvals : list Value;
  encnames : list string;
  newlen : nat
}.

Inductive attempt (A : Type) :=
| Ok (a : A)
| Raise (p : panic).
Arguments Ok {A} a.
Arguments Raise {A} p.

(** [if si.i > -1 { rv.Field(int(si.i)) } else { rv.FieldByIndex(si.is) }] *)
Definition resolve (rv : Value) (si : structFieldInfo) : option Value :=
  if (i si >? -1)%Z then Field rv (i si) else FieldByIndex rv (is_ si).

(** [for _, si := range sis { ... }]: the value is stored at
    [rvals[newlen]] first; an omitted field leaves [newlen] where it is,
    so the next field overwrites the slot. *)
Fixpoint fieldLoop (rv : Value) (sis : list structFieldInfo) (st : fieldLoopState)
  : attempt fieldLoopState :=
  match sis with
  | [] => Ok st
  | si :: sis' =>
      match resolve rv si with
      | None => Raise reflectPanic
      | Some v =>
          match store_at (rvals st) (newlen st) v with
          | None => Raise indexOutOfRange
          | Some rvals' =>
              if omitEmpty si && isEmptyValue v then
                fieldLoop rv sis'
                  {| rvals := rvals'; encnames := encnames st; newlen := newlen st |}
              else
                match store_at (encnames st) (newlen st) (encName si) with
                | None => Raise indexOutOfRange
                | Some encnames' =>
                    fieldLoop rv sis'
                      {| rvals := rvals'; encnames := encnames';
                         newlen := S (newlen st) |}
                end
          end
      end
  end.

(** [func (e *Encoder) encStruct(rt reflect.Type, rv reflect.Value)]; the
    recursive [e.encodeValue] is the argument [enc]. *)
Definition encStruct (enc : Value -> run) (rt : reflect.Type_) (rv : Value) : run :=
  let sis := getStructFieldInfos rt in
  let newlen0 := length sis in
  match fieldLoop rv sis {| rvals := replicate newlen0 ZeroV;
                            encnames := replicate newlen0 EmptyString;
                            newlen := 0 |} with
  | Raise p => throw p
  | Ok st =>
      emit (encodeMapPreamble (Z.of_nat (newlen st))) >>
      forRange (newlen st) (fun j =>
        match encnames st !! j, rvals st !! j with
        | Some name, Some v => emit (encodeSymbol name) >> enc v
        | _, _ => throw indexOutOfRange
        end)
  end.

(** ** The generic path *)

(** [func (e *Encoder) encodeValue(rv reflect.Value)]. The recursion is
    bounded by [fuel], the depth of nesting still allowed. In the kind
    switch each constructor of [Value] stands for its kinds. *)
Fixpoint encodeValue (fuel : nat) (rv : Value) : run :=
  match fuel with
  | O => ([], OutOfFuel)
  | S fuel' =>
      match TypeOf rv with
      | None => throw reflectPanic
      | Some rt =>
          if builtin rt rv then emit (encodeBuiltinType rt rv)
          else
            match getEncodeExt h rt with
            | (xfTag, Some xfFn) =>
                match xfFn rv with
                | (_, Some fnerr) => throw (extError fnerr)
                | (None, None) => emit encodeNil
                | (Some bs, None) =>
                    if writeExt h then
                      emit (encodeExtPreamble xfTag (Z.of_nat (length bs))) >>
                      emit (writeb bs)
                    else emit (encodeStringBytes c_RAW bs)
                end
            | (_, None) =>
                match rv with
                | BoolV _ b => emit (encodeBool b)
                | StringV _ s => emit (encodeString c_UTF8 s)
                | Float64V _ f => emit (encodeFloat64 f)
                | Float32V _ f =>
                    emit (encodeFloat32 (float32_of_float64 (float64_of_float32 f)))
                | SliceV _ None => emit encodeNil
                | SliceV _ (Some elems) =>
                    if decide (rt = byteSliceTyp) then
                      emit (encodeStringBytes c_RAW (BytesOf elems))
                    else
                      let l := length elems in
                      emit (encodeArrayPreamble (Z.of_nat l)) >>
                      if (l =? 0)%nat then ret
                      else forRange l (fun j =>
                             match elems !! j with
                             | Some v => encodeValue fuel' v
                             | None => throw indexOutOfRange
                             end)
                | ArrayV _ canAddr elems =>
                    (* rv.Slice(0, rv.Len()) panics on an unaddressable array *)
                    match canAddr, ArrayElem rt with
                    | true, Some et =>
                        encodeValue fuel' (SliceV (reflect.SliceOf et) (Some elems))
                    | _, _ => throw reflectPanic
                    end
                | MapV _ None => emit encodeNil
                | MapV _ (Some entries) =>
                    let l := length entries in
                    emit (encodeMapPreamble (Z.of_nat l)) >>
                    if (l =? 0)%nat then ret
                    else
                      match reflect.Key rt with
                      | None => throw reflectPanic
                      | Some kt =>
                          let keyTypeIsString :=
                            bool_decide (reflect.KindOf kt = reflect.String) in
                          (* mks[j] and rv.MapIndex(mks[j]): the j-th entry *)
                          sequence ((fun kv : Value * Value =>
                            (if keyTypeIsString
                             then emit (encodeSymbol (StringOf kv.1))
                             else encodeValue fuel' kv.1) >>
                            encodeValue fuel' kv.2) <$> entries)
                      end
                | StructV _ _ => encStruct (encodeValue fuel') rt rv
                | PtrV _ None => emit encodeNil
                | PtrV _ (Some elem) => encodeValue fuel' elem
                | InterfaceV _ None => emit encodeNil
                | InterfaceV _ (Some elem) => encodeValue fuel' elem
                | IntV _ n => emit (encodeInt n)
                | UintV _ n => emit (encodeUint n)
                | ZeroV => emit encodeNil
                | OtherV _ => throw (encErr (reflect.KindOf rt) rv)
                end
            end
      end
  end.

(** ** The primitive fast path *)

(** The dynamic content of the [interface{}] handed to [Encode], by the
    cases of the type switch in [encode]: nil, a [reflect.Value], a value
    of a predeclared scalar type, a pointer to one ([None] is the nil
    pointer), or a value of any other type, given as [reflect.ValueOf]
    presents it. Fixed-width integers are kept by value. *)
Inductive iface :=
| I_nil
| I_Value (v : Value)
| I_string (v : string)
| I_bool (v : bool)
| I_int (v : Z)
| I_int8 (v : Z)
| I_int16 (v : Z)
| I_int32 (v : Z)
| I_int64 (v : Z)
| I_uint (v : Z)
| I_uint8 (v : Z)
| I_uint16 (v : Z)
| I_uint32 (v : Z)
| I_uint64 (v : Z)
| I_float32 (v : float32)
| I_float64 (v : float64)
| P_string (v : option string)
| P_bool (v : option bool)
| P_int (v : option Z)
| P_int8 (v : option Z)
| P_int16 (v : option Z)
| P_int32 (v : option Z)
| P_int64 (v : option Z)
| P_uint (v : option Z)
| P_uint8 (v : option Z)
| P_uint16 (v : option Z)
| P_uint32 (v : option Z)
| P_uint64 (v : option Z)
| P_float32 (v : option float32)
| P_float64 (v : option float64)
| I_other (v : Value).

(** [*v]: dereferencing the nil pointer panics. *)
Definition deref {A : Type} (v : option A) (k : A -> run) : run :=
  match v with
  | Some x => k x
  | None => throw nilDereference
  end.

(** [func (e *Encoder) encode(iv interface{})]. The conversions
    [int64(v)] and [uint64(v)] widen and keep the value. *)
Definition encode (fuel : nat) (iv : iface) : run :=
  match iv with
  | I_nil => emit encodeNil
  | I_Value v => encodeValue fuel v
  | I_string v => emit (encodeString c_UTF8 v)
  | I_bool v => emit (encodeBool v)
  | I_int v | I_int8 v | I_int16 v | I_int32 v | I_int64 v => emit (encodeInt v)
  | I_uint v | I_uint8 v | I_uint16 v | I_uint32 v | I_uint64 v =>
      emit (encodeUint v)
  | I_float32 v => emit (encodeFloat32 v)
  | I_float64 v => emit (encodeFloat64 v)
  | P_string v => deref v (fun x => emit (encodeString c_UTF8 x))
  | P_bool v => deref v (fun x => emit (encodeBool x))
  | P_int v | P_int8 v | P_int16 v | P_int32 v | P_int64 v =>
      deref v (fun x => emit (encodeInt x))
  | P_uint v | P_uint8 v | P_uint16 v | P_uint32 v | P_uint64 v =>
      deref v (fun x => emit (encodeUint x))
  | P_float32 v => deref v (fun x => emit (encodeFloat32 x))
  | P_float64 v => deref v (fun x => emit (encodeFloat64 x))
  | I_other v => encodeValue fuel v
  end.

(** [func (e *Encoder) Encode(v interface{}) (err error)]: a panic skips
    the flush and comes back as the returned error. *)
Definition Encode (fuel : nat) (v : iface) : run :=
  encode fuel v >> emit flush.

(** The reflect view of a pointer to a predeclared scalar type. *)
Definition pointerTo {A : Type} (k : reflect.Kind) (v : option A)
    (mk : reflect.Type_ -> A -> Value) : Value :=
  PtrV (reflect.PtrTo (reflect.Predeclared k)) (mk (reflect.Predeclared k) <$> v).

(** [reflect.ValueOf(iv)]. *)
Definition ValueOf (iv : iface) : Value :=
  let T := reflect.Predeclared in
  match iv with
  | I_nil => ZeroV
  | I_Value _ =>
      StructV (reflect.Defined "reflect.Value" (reflect.Literal reflect.Struct "")) []
  | I_string v => StringV (T reflect.String) v
  | I_bool v => BoolV (T reflect.Bool) v
  | I_int v => IntV (T reflect.Int) v
  | I_int8 v => IntV (T reflect.Int8) v
  | I_int16 v => IntV (T reflect.Int16) v
  | I_int32 v => IntV (T reflect.Int32) v
  | I_int64 v => IntV (T reflect.Int64) v
  | I_uint v => UintV (T reflect.Uint) v
  | I_uint8 v => UintV (T reflect.Uint8) v
  | I_uint16 v => UintV (T reflect.Uint16) v
  | I_uint32 v => UintV (T reflect.Uint32) v
  | I_uint64 v => UintV (T reflect.Uint64) v
  | I_float32 v => Float32V (T reflect.Float32) v
  | I_float64 v => Float64V (T reflect.Float64) v
  | P_string v => pointerTo reflect.String v StringV
  | P_bool v => pointerTo reflect.Bool v BoolV
  | P_int v => pointerTo reflect.Int v IntV
  | P_int8 v => pointerTo reflect.Int8 v IntV
  | P_int16 v => pointerTo reflect.Int16 v IntV
  | P_int32 v => pointerTo reflect.Int32 v IntV
  | P_int64 v => pointerTo reflect.Int64 v IntV
  | P_uint v => pointerTo reflect.Uint v UintV
  | P_uint8 v => pointerTo reflect.Uint8 v UintV
  | P_uint16 v => pointerTo reflect.Uint16 v UintV
  | P_uint32 v => pointerTo reflect.Uint32 v UintV
  | P_uint64 v => pointerTo reflect.Uint64 v UintV
  | P_float32 v => pointerTo reflect.Float32 v Float32V
  | P_float64 v => pointerTo reflect.Float64 v Float64V
  | I_other v => v
  end.

(** ** The struct projection, in the specification's words

    "For each descriptor, resolve the field value; if the descriptor's
    omit-empty flag is set and the resolved value is empty, skip it;
    otherwise keep it." *)
Definition field_pairs (rv : Value) (sis : list structFieldInfo)
  : option (list (structFieldInfo * Value)) :=
  mapM (fun si => v ← resolve rv si; Some (si, v)) sis.

Definition keep (p : structFieldInfo * Value) : bool :=
  negb (omitEmpty p.1 && isEmptyValue p.2).

Definition kept_fields (pairs : list (structFieldInfo * Value))
  : list (structFieldInfo * Value) :=
  List.filter keep pairs.

(** ** Reaching the kind switch

    [encodeValue] first offers the value to the wire format's
    [encodeBuiltinType] hook, then to the extension registered for its
    type; the kind switch is reached when the hook declines and no
    function is registered. *)
Definition reaches_kind_switch (rv : Value) : Prop :=
  match TypeOf rv with
  | Some rt => builtin rt rv = false /\ (getEncodeExt h rt).2 = None
  | None => False
  end.

(** The scalar cases of the type switch in [encode]. *)
Definition isScalar (iv : iface) : bool :=
  match iv with
  | I_string _ | I_bool _
  | I_int _ | I_int8 _ | I_int16 _ | I_int32 _ | I_int64 _
  | I_uint _ | I_uint8 _ | I_uint16 _ | I_uint32 _ | I_uint64 _
  | I_float32 _ | I_float64 _ => true
  | _ => false
  end.

(** The nil values of the generic path. *)
Definition isNilValue (rv : Value) : bool :=
  match rv with
  | SliceV _ None | MapV _ None | PtrV _ None | InterfaceV _ None => true
  | _ => false
  end.

(** ** Enough fuel

    A [Value] is a finite tree, so the recursion of [encodeValue] ends:
    fuel equal to the nesting depth of the value suffices, provided no
    descriptor of the field-metadata collaborator has an empty index
    path (such a descriptor would name the struct itself). *)
Fixpoint depth (rv : Value) : nat :=
  let fix depths (l : list Value) : nat :=
    match l with
    | [] => O
    | v :: l' => Nat.max (depth v) (depths l')
    end in
  let fix depths2 (l : list (Value * Value)) : nat :=
    match l with
    | [] => O
    | kv :: l' => Nat.max (Nat.max (depth kv.1) (depth kv.2)) (depths2 l')
    end in
  match rv with
  | SliceV _ (Some elems) => S (depths elems)
  | ArrayV _ _ elems => S (S (depths elems))
  | MapV _ (Some entries) => S (depths2 entries)
  | StructV _ fields => S (depths fields)
  | PtrV _ (Some elem) | InterfaceV _ (Some elem) => S (depth elem)
  | _ => 1
  end.

Definition max_depth (l : list Value) : nat :=
  foldr (fun v => Nat.max (depth v)) O l.

Definition max_depth2 (l : list (Value * Value)) : nat :=
  foldr (fun kv => Nat.max (Nat.max (depth kv.1) (depth kv.2))) O l.

(** No descriptor names the struct itself. *)
Definition descriptors_ok : Prop :=
  forall rt si, si ∈ getStructFieldInfos rt -> (i si > -1)%Z \/ is_ si <> [].

(** The run ended by returning or by a panic. *)
Definition stops (r : run) : Prop := r.2 <> OutOfFuel.

(** ** The shape of a trace

    What a reader of the stream expects: [pending] values are still to
    come; an array preamble of [n] stands for one value and announces [n]
    more, a map preamble of [n] announces [2 * n] (keys and values), an
    extension preamble of length [n] is followed by one raw write of
    exactly [n] bytes ([raw] holds that [n]), every other encoder call is
    one value, and neither a raw write nor a flush stands anywhere else. *)
Fixpoint well_formed (raw : option Z) (pending : nat) (evs : list event) : bool :=
  match evs with
  | [] =>
      match raw with
      | None => (pending =? 0)%nat
      | Some _ => false
      end
  | e :: rest =>
      match raw with
      | Some n =>
          match e with
          | writeb bs => (n =? Z.of_nat (length bs))%Z && well_formed None pending rest
          | _ => false
          end
      | None =>
          match pending with
          | O => false
          | S k =>
              match e with
              | encodeArrayPreamble n =>
                  (0 <=? n)%Z && well_formed None (Z.to_nat n + k) rest
              | encodeMapPreamble n =>
                  (0 <=? n)%Z && well_formed None (Z.to_nat n + Z.to_nat n + k) rest
              | encodeExtPreamble _ n => well_formed (Some n) k rest
              | writeb _ | flush => false
              | _ => well_formed None k rest
              end
          end
      end
  end.

(** The trace is exactly [k] complete values. *)
Definition values (k : nat) (evs : list event) : Prop :=
  well_formed None k evs = true.


(** A run is [tidy] when it has not flushed and has not ended on an index
    out of range. *)
Definition tidy (r : run) : Prop :=
  (flush ∉ r.1) /\ r.2 <> Panicked indexOutOfRange.

(** ** Laws of sequencing *)

Lemma andThen_ret_l (r : run) : ret >> r = r.
Proof. destruct r. reflexivity. Qed.

Lemma andThen_ret_r (r : run) : r >> ret = r.
Proof.
  destruct r as [evs []]; unfold andThen; cbn; rewrite ?app_nil_r; reflexivity.
Qed.

Lemma andThen_assoc (r1 r2 r3 : run) : (r1 >> r2) >> r3 = r1 >> (r2 >> r3).
Proof.
  destruct r1 as [e1 []], r2 as [e2 []]; unfold andThen; cbn;
    rewrite ?app_assoc; reflexivity.
Qed.

Lemma forRange_fmap {A : Type} (n : nat) (body : nat -> run) (g : A -> run)
    (l : list A) :
  length l = n ->
  (forall j x, l !! j = Some x -> body j = g x) ->
  forRange n body = sequence (g <$> l).
Proof.
  intros Hlen Hbody. unfold forRange. f_equal.
  apply list_eq. intros j. rewrite !list_lookup_fmap.
  destruct (l !! j) as [x |] eqn:Hl.
  - rewrite (lookup_seq_lt _ _ _) by (rewrite <- Hlen; eapply lookup_lt_Some, Hl).
    cbn. f_equal. exact (Hbody j x Hl).
  - rewrite lookup_seq_ge; [reflexivity |].
    rewrite <- Hlen. apply lookup_ge_None. exact Hl.
Qed.

(** The index loop over a slice visits the elements in order. *)
Lemma forRange_elems (elems : list Value) (enc : Value -> run) :
  forRange (length elems) (fun j =>
    match elems !! j with
    | Some v => enc v
    | None => throw indexOutOfRange
    end) = sequence (enc <$> elems).
Proof.
  apply forRange_fmap; [reflexivity |]. intros j x ->. reflexivity.
Qed.

(** ** The first loop of [encStruct] computes the projection *)

Lemma field_pairs_cons (rv : Value) (si : structFieldInfo)
    (sis : list structFieldInfo) (pairs : list (structFieldInfo * Value)) :
  field_pairs rv (si :: sis) = Some pairs ->
  exists v pairs', resolve rv si = Some v
    /\ field_pairs rv sis = Some pairs' /\ pairs = (si, v) :: pairs'.
Proof.
  unfold field_pairs. cbn [mapM].
  destruct (resolve rv si) as [v |]; cbn; [| discriminate].
  destruct (mapM _ sis) as [pairs' |]; cbn; [| discriminate].
  intros [= <-]. eauto.
Qed.

Lemma kept_fields_cons (si : structFieldInfo) (v : Value)
    (pairs : list (structFieldInfo * Value)) :
  kept_fields ((si, v) :: pairs) =
    if omitEmpty si && isEmptyValue v then kept_fields pairs
    else (si, v) :: kept_fields pairs.
Proof.
  unfold kept_fields. cbn [List.filter]. unfold keep at 1. cbn [fst snd].
  destruct (omitEmpty si && isEmptyValue v); reflexivity.
Qed.

Lemma fieldLoop_ok (rv : Value) (sis : list structFieldInfo) :
  forall (pairs : list (structFieldInfo * Value)) (st : fieldLoopState),
  field_pairs rv sis = Some pairs ->
  (newlen st + length sis <= length (rvals st))%nat ->
  (newlen st + length sis <= length (encnames st))%nat ->
  exists st', fieldLoop rv sis st = Ok st'
    /\ newlen st' = (newlen st + length (kept_fields pairs))%nat
    /\ take (newlen st') (encnames st')
       = take (newlen st) (encnames st) ++ ((fun p => encName p.1) <$> kept_fields pairs)
    /\ take (newlen st') (rvals st')
       = take (newlen st) (rvals st) ++ (snd <$> kept_fields pairs).
Proof.
  induction sis as [| si sis IH]; intros pairs st Hp Hrv Hen.
  - injection Hp as <-. exists st. cbn. rewrite Nat.add_0_r, !app_nil_r. auto.
  - apply field_pairs_cons in Hp as (v & pairs' & Hres & Hp' & ->).
    cbn [fieldLoop length] in *. rewrite Hres. unfold store_at.
    destruct (Nat.ltb_spec (newlen st) (length (rvals st))) as [_ | ?]; [| lia].
    rewrite kept_fields_cons.
    destruct (omitEmpty si && isEmptyValue v).
    + edestruct (IH pairs') as (st' & -> & Hn & Hnames & Hvals);
        [exact Hp' | cbn; rewrite length_insert; lia | cbn; lia |].
      cbn [newlen encnames rvals] in *.
      exists st'. split; [reflexivity |]. split; [exact Hn |]. split; [exact Hnames |].
      rewrite Hvals, take_insert_ge by lia. reflexivity.
    + destruct (Nat.ltb_spec (newlen st) (length (encnames st))) as [_ | ?]; [| lia].
      edestruct (IH pairs') as (st' & -> & Hn & Hnames & Hvals);
        [exact Hp' | cbn; rewrite length_insert; lia
        | cbn; rewrite length_insert; lia |].
      cbn [newlen encnames rvals] in *.
      exists st'. split; [reflexivity |]. split; [cbn [length]; lia |].
      rewrite Hnames, Hvals.
      rewrite !(take_S_r _ (newlen st) _) by (apply list_lookup_insert_eq; lia).
      rewrite !take_insert_ge by lia.
      cbn [fmap list_fmap fst snd]. rewrite <- !app_assoc. auto.
Qed.

(** [encStruct] against the specification's projection. *)
Lemma encStruct_refines (enc : Value -> run) (rt : reflect.Type_) (rv : Value)
    (pairs : list (structFieldInfo * Value)) :
  field_pairs rv (getStructFieldInfos rt) = Some pairs ->
  encStruct enc rt rv =
    emit (encodeMapPreamble (Z.of_nat (length (kept_fields pairs)))) >>
    sequence ((fun p => emit (encodeSymbol (encName p.1)) >> enc p.2)
              <$> kept_fields pairs).
Proof.
  intros Hp. unfold encStruct.
  edestruct (fieldLoop_ok rv (getStructFieldInfos rt) pairs) as (st & -> & Hn & Hnames & Hvals);
    [exact Hp | cbn; rewrite length_replicate; lia
    | cbn; rewrite length_replicate; lia |].
  cbn [newlen encnames rvals Nat.add] in Hn, Hnames, Hvals.
  rewrite take_0 in Hnames. rewrite take_0 in Hvals. cbn [app] in Hnames, Hvals.
  rewrite Hn. f_equal.
  apply forRange_fmap; [reflexivity |].
  intros j p Hj.
  assert (Hlt : (j < newlen st)%nat) by (rewrite Hn; eapply lookup_lt_Some, Hj).
  rewrite <- (lookup_take_lt (encnames st) (newlen st) j Hlt), Hnames.
  rewrite <- (lookup_take_lt (rvals st) (newlen st) j Hlt), Hvals.
  rewrite !list_lookup_fmap, Hj. reflexivity.
Qed.

(** ** The two paths *)

Ltac kind_switch H :=
  unfold reaches_kind_switch in H; cbn [TypeOf] in H;
  let Hb := fresh "Hb" in
  let Hx := fresh "Hx" in
  destruct H as [Hb Hx];
  cbn [encodeValue TypeOf]; rewrite Hb;
  match type of Hx with
  | (getEncodeExt h ?t).2 = None =>
      destruct (getEncodeExt h t) as [? [? |]]; cbn [snd] in Hx; [discriminate Hx |]
  end.


Lemma encodeValue_nil (fuel : nat) (rv : Value) :
  isNilValue rv = true ->
  reaches_kind_switch rv ->
  encodeValue (S fuel) rv = emit encodeNil.
Proof.
  intros Hnil Hk.
  destruct rv as [| | | | | | | ? [|] | | ? [|] | | ? [|] | ? [|] |];
    try discriminate Hnil; kind_switch Hk; reflexivity.
Qed.

(** On the generic path a nil slice, map, pointer or interface is written
    as the nil marker and nothing else, also when it is the value handed
    to [encode]; so is the nil interface handed to [encode] itself. *)
Theorem nil_values_encode_nil (fuel : nat) (rv : Value) :
  isNilValue rv = true ->
  reaches_kind_switch rv ->
  encodeValue (S fuel) rv = ([encodeNil], Returned)
  /\ encode (S fuel) (I_other rv) = ([encodeNil], Returned)
  /\ Encode (S fuel) (I_other rv) = ([encodeNil; flush], Returned)
  /\ encode (S fuel) I_nil = ([encodeNil], Returned).
Proof.
  intros Hnil Hk. pose proof (encodeValue_nil fuel rv Hnil Hk) as H1.
  unfold Encode. cbn [encode]. rewrite H1. repeat split; reflexivity.
Qed.

(** C2, on the fast path. A nil pointer to a predeclared scalar type is
    caught by the type switch of [encode], which dereferences it without
    a nil check: the encode panics before any encoder call and [Encode]
    returns the error, where the kind switch of [encodeValue] writes the
    nil marker for the same pointer. *)
Theorem nil_scalar_pointer_panics (fuel : nat) :
  encode fuel (P_int None) = ([], Panicked nilDereference)
  /\ encode fuel (P_string None) = ([], Panicked nilDereference)
  /\ Encode fuel (P_int None) = ([], Panicked nilDereference)
  /\ Encode fuel (P_string None) = ([], Panicked nilDereference)
  /\ (reaches_kind_switch (ValueOf (P_int None)) ->
      encodeValue (S fuel) (ValueOf (P_int None)) = ([encodeNil], Returned)).
Proof.
  repeat split; try reflexivity.
  intros Hk. apply encodeValue_nil; [reflexivity | exact Hk].
Qed.

(** C7. When the hook declines and a function is registered for the
    value's type, [encodeValue] calls it and: an error stops the encode
    with that error, which [Encode] hands back without flushing; a nil
    payload is written as the nil marker; any other payload is written as
    an extension preamble (tag, payload length) followed by the raw bytes
    when [writeExt] is set, and as a raw byte string when it is not. *)
Theorem extension_override (fuel : nat) (rv : Value) (rt : reflect.Type_)
    (xfTag : byte) (xfFn : extFn) :
  TypeOf rv = Some rt ->
  builtin rt rv = false ->
  getEncodeExt h rt = (xfTag, Some xfFn) ->
  (forall bs fnerr, xfFn rv = (bs, Some fnerr) ->
     encodeValue (S fuel) rv = ([], Panicked (extError fnerr))
     /\ Encode (S fuel) (I_other rv) = ([], Panicked (extError fnerr)))
  /\ (xfFn rv = (None, None) ->
      encodeValue (S fuel) rv = ([encodeNil], Returned))
  /\ (forall bs, xfFn rv = (Some bs, None) -> writeExt h = true ->
      encodeValue (S fuel) rv
      = ([encodeExtPreamble xfTag (Z.of_nat (length bs)); writeb bs], Returned))
  /\ (forall bs, xfFn rv = (Some bs, None) -> writeExt h = false ->
      encodeValue (S fuel) rv = ([encodeStringBytes c_RAW bs], Returned)).
Proof.
  intros Ht Hb Hx.
  assert (Hstep : encodeValue (S fuel) rv =
            match xfFn rv with
            | (_, Some fnerr) => throw (extError fnerr)
            | (None, None) => emit encodeNil
            | (Some bs, None) =>
                if writeExt h then
                  emit (encodeExtPreamble xfTag (Z.of_nat (length bs))) >>
                  emit (writeb bs)
                else emit (encodeStringBytes c_RAW bs)
            end).
  { cbn [encodeValue]. rewrite Ht, Hb, Hx. reflexivity. }
  repeat split.
  - rewrite Hstep, H. destruct bs; reflexivity.
  - unfold Encode. cbn [encode]. rewrite Hstep, H. destruct bs; reflexivity.
  - intros Hr. rewrite Hstep, Hr. reflexivity.
  - intros bs Hr Hw. rewrite Hstep, Hr, Hw. reflexivity.
  - intros bs Hr Hw. rewrite Hstep, Hr, Hw. reflexivity.
Qed.

(** C5. The struct projection. Where every descriptor resolves to a field
    value, [encStruct] writes a map preamble counting the kept fields and
    then, for each kept field in the descriptors' order, its name as a
    symbol followed by its value; a field is dropped exactly when its
    descriptor has omit-empty set and its value is empty, so a field
    without the flag is always written. *)
Theorem struct_omit_empty (fuel : nat) (rt : reflect.Type_) (rv : Value)
    (pairs : list (structFieldInfo * Value)) :
  field_pairs rv (getStructFieldInfos rt) = Some pairs ->
  encStruct (encodeValue fuel) rt rv =
    emit (encodeMapPreamble (Z.of_nat (length (kept_fields pairs)))) >>
    sequence ((fun p => emit (encodeSymbol (encName p.1)) >> encodeValue fuel p.2)
              <$> kept_fields pairs)
  /\ kept_fields pairs `sublist_of` pairs
  /\ (forall p, p ∈ pairs -> omitEmpty p.1 = true -> isEmptyValue p.2 = true ->
        p ∉ kept_fields pairs)
  /\ (forall p, p ∈ pairs -> omitEmpty p.1 = false -> p ∈ kept_fields pairs).
Proof.
  intros Hp. split; [exact (encStruct_refines _ rt rv pairs Hp) |]. split; [| split].
  - clear Hp. induction pairs as [| [si v] pairs IH]; [constructor |].
    rewrite kept_fields_cons.
    destruct (omitEmpty si && isEmptyValue v);
      [apply sublist_cons | apply sublist_skip]; exact IH.
  - intros p _ Ho He Hin. apply list_elem_of_In, filter_In in Hin as [_ Hk].
    unfold keep in Hk. rewrite Ho, He in Hk. discriminate Hk.
  - intros p Hin Ho. apply list_elem_of_In, filter_In. split.
    + apply list_elem_of_In, Hin.
    + unfold keep. rewrite Ho. reflexivity.
Qed.

(** C9, as the source has it. For a non-nil map that reaches the kind
    switch, the test is on the kind of the key type: a key type of kind
    String (the predeclared [string] or a defined type over it) has every
    key written as a symbol; a key type of any other kind has every key
    encoded by [encodeValue]. Each key is followed by its value, encoded
    by [encodeValue]. *)
Theorem map_keys_by_kind (fuel : nat) (rt kt : reflect.Type_)
    (entries : list (Value * Value)) :
  reaches_kind_switch (MapV rt (Some entries)) ->
  reflect.Key rt = Some kt ->
  encodeValue (S fuel) (MapV rt (Some entries)) =
    emit (encodeMapPreamble (Z.of_nat (length entries))) >>
    sequence ((fun kv : Value * Value =>
                 (if bool_decide (reflect.KindOf kt = reflect.String)
                  then emit (encodeSymbol (StringOf kv.1))
                  else encodeValue fuel kv.1) >>
                 encodeValue fuel kv.2) <$> entries).
Proof.
  intros Hk Hkey. kind_switch Hk. rewrite Hkey.
  destruct entries as [| kv entries]; reflexivity.
Qed.

(** C10. For a non-nil slice that reaches the kind switch, the raw byte
    string is written exactly when the slice's type is [[]byte] itself;
    for every other type, a defined type over [[]byte] included, an array
    preamble is written and then the elements one by one, in index
    order. *)
Theorem byte_slice_by_exact_type (fuel : nat) (rt : reflect.Type_)
    (elems : list Value) :
  reaches_kind_switch (SliceV rt (Some elems)) ->
  (rt = byteSliceTyp ->
     encodeValue (S fuel) (SliceV rt (Some elems))
     = emit (encodeStringBytes c_RAW (BytesOf elems)))
  /\ (rt <> byteSliceTyp ->
      encodeValue (S fuel) (SliceV rt (Some elems))
      = emit (encodeArrayPreamble (Z.of_nat (length elems))) >>
        sequence (encodeValue fuel <$> elems))
  /\ (forall name, reflect.Defined name byteSliceTyp <> byteSliceTyp).
Proof.
  intros Hk. kind_switch Hk. split; [| split].
  - intros ->. rewrite decide_True by reflexivity. reflexivity.
  - intros Hne. rewrite decide_False by exact Hne.
    destruct elems as [| v elems]; [reflexivity |].
    cbn [length Nat.eqb]. rewrite <- forRange_elems. reflexivity.
  - intros name. discriminate.
Qed.

(** ** Termination *)

Lemma depth_unfold (rv : Value) :
  depth rv =
    match rv with
    | SliceV _ (Some elems) => S (max_depth elems)
    | ArrayV _ _ elems => S (S (max_depth elems))
    | MapV _ (Some entries) => S (max_depth2 entries)
    | StructV _ fields => S (max_depth fields)
    | PtrV _ (Some elem) | InterfaceV _ (Some elem) => S (depth elem)
    | _ => 1%nat
    end.
Proof.
  assert (H1 : forall l, (fix depths (l : list Value) : nat :=
                            match l with
                            | [] => O
                            | v :: l' => Nat.max (depth v) (depths l')
                            end) l = max_depth l)
    by (induction l as [| v l IH]; cbn; [| rewrite IH]; reflexivity).
  assert (H2 : forall l, (fix depths2 (l : list (Value * Value)) : nat :=
                            match l with
                            | [] => O
                            | kv :: l' =>
                                Nat.max (Nat.max (depth kv.1) (depth kv.2)) (depths2 l')
                            end) l = max_depth2 l)
    by (induction l as [| v l IH]; cbn; [| rewrite IH]; reflexivity).
  destruct rv as [| | | | | | | ? [|] | | ? [|] | | ? [|] | ? [|] |];
    cbn [depth]; rewrite ?H1, ?H2; reflexivity.
Qed.

Lemma depth_elem (l : list Value) (v : Value) :
  v ∈ l -> (depth v <= max_depth l)%nat.
Proof.
  induction l as [| x l IH]; intros Hin; [inversion Hin |].
  change (max_depth (x :: l)) with (Nat.max (depth x) (max_depth l)).
  apply elem_of_cons in Hin as [-> | Hin]; [| specialize (IH Hin)]; lia.
Qed.

Lemma depth_entry (l : list (Value * Value)) (kv : Value * Value) :
  kv ∈ l -> (depth kv.1 <= max_depth2 l /\ depth kv.2 <= max_depth2 l)%nat.
Proof.
  induction l as [| x l IH]; intros Hin; [inversion Hin |].
  change (max_depth2 (x :: l))
    with (Nat.max (Nat.max (depth x.1) (depth x.2)) (max_depth2 l)).
  apply elem_of_cons in Hin as [-> | Hin]; [| specialize (IH Hin)]; lia.
Qed.

Lemma Field_depth (rv v : Value) (k : Z) :
  Field rv k = Some v -> (depth v < depth rv)%nat.
Proof.
  destruct rv; cbn [Field]; try discriminate.
  destruct (k <? 0)%Z; [discriminate |]. intros Hl.
  rewrite (depth_unfold (StructV _ _)).
  apply list_elem_of_lookup_2, depth_elem in Hl. lia.
Qed.

Lemma FieldByIndex_from_depth (index : list Z) :
  forall (first : bool) (rv v : Value),
  FieldByIndex_from first rv index = Some v ->
  (depth v <= depth rv)%nat /\ (index <> [] -> (depth v < depth rv)%nat).
Proof.
  induction index as [| x index IH]; intros first rv v; cbn [FieldByIndex_from].
  - intros [= <-]. split; [lia | congruence].
  - set (rv' := match first, rv with
                | false, PtrV _ (Some (StructV t fields)) => StructV t fields
                | _, _ => rv
                end).
    assert (Hrv' : (depth rv' <= depth rv)%nat).
    { subst rv'. destruct first; [lia |].
      destruct rv as [| | | | | | | | | | | ? [[]|] | |]; try lia.
      rewrite (depth_unfold (PtrV _ _)). lia. }
    destruct (Field rv' x) as [f |] eqn:Hf; cbn [mbind option_bind]; [| discriminate].
    intros Hrest. apply Field_depth in Hf. apply IH in Hrest as [Hle _].
    split; [| intros _]; lia.
Qed.

Lemma resolve_depth (rv v : Value) (si : structFieldInfo) :
  (i si > -1)%Z \/ is_ si <> [] ->
  resolve rv si = Some v -> (depth v < depth rv)%nat.
Proof.
  intros Hsi. unfold resolve.
  destruct (Z.gtb_spec (i si) (-1)) as [_ | Hle].
  - apply Field_depth.
  - destruct Hsi as [? | Hne]; [lia |].
    unfold FieldByIndex. destruct rv; try discriminate.
    intros Hr. apply FieldByIndex_from_depth in Hr as [_ Hlt]. exact (Hlt Hne).
Qed.

Lemma field_pairs_elem (rv : Value) (sis : list structFieldInfo) :
  forall pairs p, field_pairs rv sis = Some pairs -> p ∈ pairs ->
  p.1 ∈ sis /\ resolve rv p.1 = Some p.2.
Proof.
  induction sis as [| si sis IH]; intros pairs p Hp Hin.
  - injection Hp as <-. inversion Hin.
  - apply field_pairs_cons in Hp as (v & pairs' & Hres & Hp' & ->).
    apply elem_of_cons in Hin as [-> | Hin].
    + split; [left | exact Hres].
    + destruct (IH pairs' p Hp' Hin) as [H1 H2]. split; [right; exact H1 | exact H2].
Qed.

(** When the first loop of [encStruct] completes, every descriptor has
    resolved. *)
Lemma fieldLoop_resolved (rv : Value) (sis : list structFieldInfo) :
  forall st st', fieldLoop rv sis st = Ok st' ->
  exists pairs, field_pairs rv sis = Some pairs.
Proof.
  induction sis as [| si sis IH]; intros st st'; cbn [fieldLoop].
  - intros _. exists []. reflexivity.
  - unfold field_pairs. cbn [mapM].
    destruct (resolve rv si) as [v |]; [| discriminate]. cbn [mbind option_bind].
    destruct (store_at (rvals st) (newlen st) v) as [rvals' |]; [| discriminate].
    destruct (omitEmpty si && isEmptyValue v).
    + intros Hrun. apply IH in Hrun as [pairs Hp].
      unfold field_pairs in Hp. rewrite Hp. cbn. eauto.
    + destruct (store_at (encnames st) (newlen st) (encName si)); [| discriminate].
      intros Hrun. apply IH in Hrun as [pairs Hp].
      unfold field_pairs in Hp. rewrite Hp. cbn. eauto.
Qed.

Lemma stops_andThen (r1 r2 : run) : stops r1 -> stops r2 -> stops (r1 >> r2).
Proof.
  unfold stops, andThen. destruct r1 as [e1 []]; cbn; auto.
Qed.

Lemma stops_sequence (rs : list run) :
  (forall r, r ∈ rs -> stops r) -> stops (sequence rs).
Proof.
  induction rs as [| r rs IH]; intros Hall; cbn.
  - discriminate.
  - apply stops_andThen; [apply Hall; left |].
    apply IH. intros r' Hr'. apply Hall. right. exact Hr'.
Qed.

Lemma stops_encStruct (enc : Value -> run) (rt : reflect.Type_) (rv : Value) :
  descriptors_ok ->
  (forall v, (depth v < depth rv)%nat -> stops (enc v)) ->
  stops (encStruct enc rt rv).
Proof.
  intros Hd Henc.
  destruct (fieldLoop rv (getStructFieldInfos rt)
              {| rvals := replicate (length (getStructFieldInfos rt)) ZeroV;
                 encnames := replicate (length (getStructFieldInfos rt)) EmptyString;
                 newlen := 0 |}) as [st | p] eqn:Hloop.
  - destruct (fieldLoop_resolved _ _ _ _ Hloop) as [pairs Hp].
    rewrite (encStruct_refines enc rt rv pairs Hp).
    apply stops_andThen; [discriminate |].
    apply stops_sequence. intros r Hr.
    apply list_elem_of_fmap in Hr as (q & -> & Hq).
    apply stops_andThen; [discriminate |]. apply Henc.
    apply list_elem_of_In, filter_In in Hq as [Hq _]. apply list_elem_of_In in Hq.
    destruct (field_pairs_elem rv _ pairs q Hp Hq) as [Hsi Hres].
    exact (resolve_depth rv q.2 q.1 (Hd rt q.1 Hsi) Hres).
  - unfold encStruct. rewrite Hloop. discriminate.
Qed.

(** With fuel at least the depth of the value, [encodeValue] returns or
    panics: it does not run out of fuel. *)
Theorem encodeValue_enough_fuel (fuel : nat) :
  descriptors_ok ->
  forall rv, (depth rv <= fuel)%nat -> stops (encodeValue fuel rv).
Proof.
  intros Hd. induction fuel as [| fuel IH]; intros rv Hdepth.
  - rewrite depth_unfold in Hdepth.
    destruct rv as [| | | | | | | ? [|] | | ? [|] | | ? [|] | ? [|] |]; lia.
  - cbn [encodeValue].
    destruct (TypeOf rv) as [rt |]; [| discriminate].
    destruct (builtin rt rv); [discriminate |].
    destruct (getEncodeExt h rt) as [xfTag [xfFn |]].
    { destruct (xfFn rv) as [[bs |] [fnerr |]]; try discriminate.
      destruct (writeExt h); discriminate. }
    rewrite depth_unfold in Hdepth.
    destruct rv as [| t b | t n | t n | t f | t f | t s | t [elems |] | t a elems
                   | t [entries |] | t fields | t [elem |] | t [elem |] | t];
      try discriminate.
    + destruct (decide (rt = byteSliceTyp)); [discriminate |].
      apply stops_andThen; [discriminate |].
      destruct (length elems =? 0)%nat; [discriminate |].
      rewrite forRange_elems. apply stops_sequence. intros r Hr.
      apply list_elem_of_fmap in Hr as (v & -> & Hv).
      apply IH. apply depth_elem in Hv. lia.
    + destruct a; [| discriminate].
      destruct (ArrayElem rt); [| discriminate].
      apply IH. rewrite depth_unfold. lia.
    + apply stops_andThen; [discriminate |].
      destruct (length entries =? 0)%nat; [discriminate |].
      destruct (reflect.Key rt); [| discriminate].
      apply stops_sequence. intros r Hr.
      apply list_elem_of_fmap in Hr as (kv & -> & Hkv).
      apply depth_entry in Hkv as [Hk Hv].
      apply stops_andThen; [| apply IH; lia].
      destruct (bool_decide _); [discriminate | apply IH; lia].
    + apply stops_encStruct; [exact Hd |].
      intros v Hv. apply IH. rewrite (depth_unfold (StructV _ _)) in Hv. lia.
    + apply IH. lia.
    + apply IH. lia.
Qed.

(** ** Fuel beyond what is needed changes nothing *)

Lemma stops_andThen_inv (r1 r2 : run) :
  stops (r1 >> r2) -> stops r1 /\ (r1.2 = Returned -> stops r2).
Proof.
  unfold stops, andThen. destruct r1 as [e1 []]; cbn; intros H; split; auto;
    discriminate.
Qed.

Lemma andThen_more_fuel (r1 r1' r2 r2' : run) :
  (stops r1 -> r1' = r1) -> (stops r2 -> r2' = r2) ->
  stops (r1 >> r2) -> r1' >> r2' = r1 >> r2.
Proof.
  intros H1 H2 Hs. apply stops_andThen_inv in Hs as [Hs1 Hs2].
  rewrite (H1 Hs1). destruct r1 as [e1 []]; unfold andThen; cbn; try reflexivity.
  rewrite (H2 (Hs2 eq_refl)). reflexivity.
Qed.

Lemma sequence_more_fuel {A : Type} (f f' : A -> run) (l : list A) :
  (forall x, x ∈ l -> stops (f x) -> f' x = f x) ->
  stops (sequence (f <$> l)) -> sequence (f' <$> l) = sequence (f <$> l).
Proof.
  induction l as [| x l IH]; intros Hf Hs; [reflexivity |].
  cbn [fmap list_fmap sequence foldr] in *.
  apply andThen_more_fuel; [apply Hf; left | | exact Hs].
  intros Hs'. apply IH; [| exact Hs'].
  intros y Hy. apply Hf. right. exact Hy.
Qed.

Lemma encodeValue_more_fuel (fuel : nat) :
  forall rv, stops (encodeValue fuel rv) ->
  encodeValue (S fuel) rv = encodeValue fuel rv.
Proof.
  induction fuel as [| fuel IH]; intros rv Hs; [exfalso; apply Hs; reflexivity |].
  revert Hs. cbn [encodeValue].
  destruct (TypeOf rv) as [rt |]; [| reflexivity].
  destruct (builtin rt rv); [reflexivity |].
  destruct (getEncodeExt h rt) as [xfTag [xfFn |]]; [reflexivity |].
  destruct rv as [| t b | t n | t n | t f | t f | t s | t [elems |] | t a elems
                 | t [entries |] | t fields | t [elem |] | t [elem |] | t];
    try reflexivity.
  - destruct (decide (rt = byteSliceTyp)); [reflexivity |].
    intros Hs. apply andThen_more_fuel; [reflexivity | | exact Hs].
    destruct (length elems =? 0)%nat; [reflexivity |].
    rewrite !forRange_elems. apply sequence_more_fuel. intros v _. apply IH.
  - destruct a; [| reflexivity]. destruct (ArrayElem rt); [| reflexivity]. apply IH.
  - intros Hs. apply andThen_more_fuel; [reflexivity | | exact Hs].
    destruct (length entries =? 0)%nat; [reflexivity |].
    destruct (reflect.Key rt); [| reflexivity].
    apply sequence_more_fuel. intros kv _.
    apply andThen_more_fuel; [| apply IH].
    destruct (bool_decide _); [reflexivity | apply IH].
  - unfold encStruct.
    destruct (fieldLoop _ _ _) as [st | p]; [| reflexivity].
    intros Hs. apply andThen_more_fuel; [reflexivity | | exact Hs].
    unfold forRange. apply sequence_more_fuel. intros j _.
    destruct (encnames st !! j); [| reflexivity].
    destruct (rvals st !! j); [| reflexivity].
    apply andThen_more_fuel; [reflexivity | apply IH].
  - apply IH.
  - apply IH.
Qed.

Lemma encodeValue_fuel_le (fuel fuel' : nat) (rv : Value) :
  (fuel <= fuel')%nat -> stops (encodeValue fuel rv) ->
  encodeValue fuel' rv = encodeValue fuel rv.
Proof.
  induction 1 as [| m Hle IH]; intros Hs; [reflexivity |].
  rewrite <- (IH Hs). apply encodeValue_more_fuel. rewrite (IH Hs). exact Hs.
Qed.

(** ** Every completed encode is one well-formed value *)

Lemma well_formed_app (evs evs' : list event) (k' : nat) :
  values k' evs' ->
  forall raw k, well_formed raw k evs = true ->
  well_formed raw (k + k') (evs ++ evs') = true.
Proof.
  intros Hv. induction evs as [| e evs IH]; intros raw k; cbn [well_formed app].
  - destruct raw; [discriminate |]. intros Hk. apply Nat.eqb_eq in Hk. subst k.
    exact Hv.
  - destruct raw as [n |].
    + destruct e; try discriminate. intros H. apply andb_true_iff in H as [-> H].
      cbn [andb]. exact (IH None k H).
    + destruct k as [| k]; [discriminate |]. cbn [Nat.add].
      destruct e; try discriminate; try exact (IH None k); try exact (IH (Some _) k).
      * intros H. apply andb_true_iff in H as [-> H]. cbn [andb].
        rewrite Nat.add_assoc. exact (IH None _ H).
      * intros H. apply andb_true_iff in H as [-> H]. cbn [andb].
        rewrite Nat.add_assoc. exact (IH None _ H).
Qed.

Lemma values_app (k k' : nat) (evs evs' : list event) :
  values k evs -> values k' evs' -> values (k + k') (evs ++ evs').
Proof. intros H H'. exact (well_formed_app evs evs' k' H' None k H). Qed.

Lemma values_array (n : nat) (evs : list event) :
  values n evs -> values 1 (encodeArrayPreamble (Z.of_nat n) :: evs).
Proof.
  unfold values. cbn [well_formed]. intros H.
  rewrite Nat2Z.id, Nat.add_0_r, H.
  destruct (Z.leb_spec 0 (Z.of_nat n)); [reflexivity | lia].
Qed.

Lemma values_map (n : nat) (evs : list event) :
  values (n * 2) evs -> values 1 (encodeMapPreamble (Z.of_nat n) :: evs).
Proof.
  unfold values. cbn [well_formed]. intros H.
  rewrite Nat2Z.id, Nat.add_0_r. replace (n + n)%nat with (n * 2)%nat by lia.
  rewrite H. destruct (Z.leb_spec 0 (Z.of_nat n)); [reflexivity | lia].
Qed.

Lemma andThen_returned (r1 r2 : run) (evs : list event) :
  r1 >> r2 = (evs, Returned) ->
  exists e1 e2, r1 = (e1, Returned) /\ r2 = (e2, Returned) /\ evs = e1 ++ e2.
Proof.
  destruct r1 as [e1 o1], r2 as [e2 o2]. unfold andThen. cbn.
  destruct o1; intros [= <- Ho]; try discriminate Ho; subst; eauto.
Qed.

Lemma sequence_values (c : nat) (rs : list run) :
  (forall r e, r ∈ rs -> r = (e, Returned) -> values c e) ->
  forall evs, sequence rs = (evs, Returned) -> values (length rs * c) evs.
Proof.
  induction rs as [| r rs IH]; intros Hall evs; cbn [sequence foldr length].
  - intros [= <-]. reflexivity.
  - intros Hrun. apply andThen_returned in Hrun as (e1 & e2 & -> & Hrest & ->).
    cbn [Nat.mul]. apply values_app.
    + apply (Hall (e1, Returned)); [left | reflexivity].
    + apply IH; [| exact Hrest]. intros r e Hr. apply Hall. right. exact Hr.
Qed.

Lemma encodeValue_values (fuel : nat) :
  forall rv evs, encodeValue fuel rv = (evs, Returned) -> values 1 evs.
Proof.
  induction fuel as [| fuel IH]; intros rv evs; [discriminate |].
  cbn [encodeValue].
  destruct (TypeOf rv) as [rt |]; [| discriminate].
  destruct (builtin rt rv); [intros [= <-]; reflexivity |].
  destruct (getEncodeExt h rt) as [xfTag [xfFn |]].
  { destruct (xfFn rv) as [[bs |] [fnerr |]]; try discriminate.
    - destruct (writeExt h); intros [= <-]; [| reflexivity].
      unfold values. cbn. rewrite Z.eqb_refl. reflexivity.
    - intros [= <-]. reflexivity. }
  destruct rv as [| t b | t n | t n | t f | t f | t s | t [elems |] | t a elems
                 | t [entries |] | t fields | t [elem |] | t [elem |] | t];
    try discriminate; try (intros [= <-]; reflexivity); try apply IH.
  - destruct (decide (rt = byteSliceTyp)); [intros [= <-]; reflexivity |].
    intros Hrun. apply andThen_returned in Hrun as (e1 & e2 & [= <-] & Hrest & ->).
    apply values_array.
    destruct (Nat.eqb_spec (length elems) 0) as [-> | _];
      [injection Hrest as <-; reflexivity |].
    rewrite forRange_elems in Hrest.
    apply (sequence_values 1) in Hrest.
    + rewrite length_fmap, Nat.mul_1_r in Hrest. exact Hrest.
    + intros r e Hr ->. apply list_elem_of_fmap in Hr as (v' & Hv' & _).
      exact (IH v' e (eq_sym Hv')).
  - destruct a; [| discriminate]. destruct (ArrayElem rt); [| discriminate]. apply IH.
  - intros Hrun. apply andThen_returned in Hrun as (e1 & e2 & [= <-] & Hrest & ->).
    apply values_map.
    destruct (Nat.eqb_spec (length entries) 0) as [-> | _];
      [injection Hrest as <-; reflexivity |].
    destruct (reflect.Key rt); [| discriminate].
    apply (sequence_values 2) in Hrest.
    + rewrite length_fmap in Hrest. exact Hrest.
    + intros r e Hr ->. apply list_elem_of_fmap in Hr as (kv' & Hkv' & _).
      symmetry in Hkv'.
      apply andThen_returned in Hkv' as (ek & ev & Hk & Hv & ->).
      apply (values_app 1 1); [| exact (IH _ _ Hv)].
      destruct (bool_decide _); [injection Hk as <-; reflexivity | exact (IH _ _ Hk)].
  - unfold encStruct.
    destruct (fieldLoop _ _ _) as [st | p]; [| discriminate].
    intros Hrun. apply andThen_returned in Hrun as (e1 & e2 & [= <-] & Hrest & ->).
    apply values_map. unfold forRange in Hrest.
    apply (sequence_values 2) in Hrest.
    + rewrite length_fmap, length_seq in Hrest. exact Hrest.
    + intros r e Hr ->. apply list_elem_of_fmap in Hr as (j & Hj & _).
      symmetry in Hj.
      destruct (encnames st !! j); [| discriminate].
      destruct (rvals st !! j); [| discriminate].
      apply andThen_returned in Hj as (ek & ev & [= <-] & Hv & ->).
      apply (values_app 1 1); [reflexivity | exact (IH _ _ Hv)].
Qed.

(** Whatever the value, the wire format's hook and the registered
    extensions, an [Encode] that returns has made the calls of exactly one
    well-formed value and then flushed: each array preamble is followed by
    as many values as it announces, each map preamble by twice as many,
    each extension preamble by one raw write of the announced length, and
    no raw write or flush stands anywhere else. *)
Theorem Encode_well_formed (fuel : nat) (iv : iface) (evs : list event) :
  Encode fuel iv = (evs, Returned) ->
  exists evs', evs = evs' ++ [flush] /\ values 1 evs'.
Proof.
  unfold Encode. intros Hrun.
  apply andThen_returned in Hrun as (e1 & e2 & Henc & [= <-] & ->).
  exists e1. split; [reflexivity |].
  destruct iv; cbn [encode] in Henc;
    try (injection Henc as <-; reflexivity);
    try exact (encodeValue_values fuel _ _ Henc);
    destruct v; cbn [deref] in Henc; try discriminate Henc;
    injection Henc as <-; reflexivity.
Qed.

(** ** Pointers to scalars on the two paths *)


(** ** Structs and maps *)

(** Struct values encode as maps. A struct whose descriptors all resolve
    makes the very calls that a map with string keys makes whose entries
    are, in the order its keys are walked, the names and values of the
    struct's kept fields. *)
Theorem struct_encodes_as_map (fuel : nat) (rt mt kt : reflect.Type_)
    (fields : list Value) (pairs : list (structFieldInfo * Value)) :
  reaches_kind_switch (StructV rt fields) ->
  reaches_kind_switch
    (MapV mt (Some ((fun p => (StringV kt (encName p.1), p.2)) <$> kept_fields pairs))) ->
  reflect.Key mt = Some kt ->
  reflect.KindOf kt = reflect.String ->
  field_pairs (StructV rt fields) (getStructFieldInfos rt) = Some pairs ->
  encodeValue (S fuel) (StructV rt fields)
  = encodeValue (S fuel)
      (MapV mt (Some ((fun p => (StringV kt (encName p.1), p.2)) <$> kept_fields pairs))).
Proof.
  intros Hks Hkm Hkey Hkind Hp.
  kind_switch Hks. rewrite (encStruct_refines _ rt _ pairs Hp).
  kind_switch Hkm. rewrite length_fmap. f_equal.
  destruct (kept_fields pairs) as [| q qs] eqn:Hkept; [reflexivity |].
  cbn [length Nat.eqb]. rewrite Hkey, Hkind.
  rewrite bool_decide_eq_true_2 by reflexivity.
  rewrite <- list_fmap_compose. reflexivity.
Qed.

(** ** What the engine never does *)

Lemma tidy_emit (e : event) : e <> flush -> tidy (emit e).
Proof.
  intros He. split; [| discriminate]. cbn. intros Hin.
  apply list_elem_of_singleton in Hin. congruence.
Qed.

Lemma tidy_andThen (r1 r2 : run) : tidy r1 -> tidy r2 -> tidy (r1 >> r2).
Proof.
  destruct r1 as [e1 o1], r2 as [e2 o2]. unfold tidy, andThen. cbn.
  intros [H1 Ho1] [H2 Ho2]. destruct o1; cbn; try (split; assumption).
  split; [| exact Ho2]. intros Hin. apply elem_of_app in Hin as [? | ?]; auto.
Qed.

Lemma tidy_sequence (rs : list run) :
  (forall r, r ∈ rs -> tidy r) -> tidy (sequence rs).
Proof.
  induction rs as [| r rs IH]; intros Hall; cbn [sequence foldr].
  - split; [apply not_elem_of_nil | discriminate].
  - apply tidy_andThen; [apply Hall; left |].
    apply IH. intros r' Hr'. apply Hall. right. exact Hr'.
Qed.

(** The first loop of [encStruct] stays within [rvals] and [encnames]:
    it fails only where [reflect] does, and leaves [newlen] within both. *)
Lemma fieldLoop_in_range (rv : Value) (sis : list structFieldInfo) :
  forall st,
  (newlen st + length sis <= length (rvals st))%nat ->
  (newlen st + length sis <= length (encnames st))%nat ->
  match fieldLoop rv sis st with
  | Ok st' => (newlen st' <= length (rvals st'))%nat
              /\ (newlen st' <= length (encnames st'))%nat
  | Raise p => p = reflectPanic
  end.
Proof.
  induction sis as [| si sis IH]; intros st Hrv Hen; cbn [fieldLoop length] in *.
  - lia.
  - destruct (resolve rv si) as [v |]; [| reflexivity]. unfold store_at.
    destruct (Nat.ltb_spec (newlen st) (length (rvals st))) as [_ | ?]; [| lia].
    destruct (omitEmpty si && isEmptyValue v).
    + apply IH; cbn; rewrite ?length_insert; lia.
    + destruct (Nat.ltb_spec (newlen st) (length (encnames st))) as [_ | ?]; [| lia].
      apply IH; cbn; rewrite ?length_insert; lia.
Qed.

Lemma tidy_encStruct (enc : Value -> run) (rt : reflect.Type_) (rv : Value) :
  (forall v, tidy (enc v)) -> tidy (encStruct enc rt rv).
Proof.
  intros Henc. unfold encStruct.
  pose proof (fieldLoop_in_range rv (getStructFieldInfos rt)
                {| rvals := replicate (length (getStructFieldInfos rt)) ZeroV;
                   encnames := replicate (length (getStructFieldInfos rt)) EmptyString;
                   newlen := 0 |}) as Hloop.
  cbn [rvals encnames newlen] in Hloop. rewrite !length_replicate in Hloop.
  specialize (Hloop (Nat.le_refl _) (Nat.le_refl _)).
  destruct (fieldLoop _ _ _) as [st | p].
  - destruct Hloop as [Hrv Hen].
    apply tidy_andThen; [apply tidy_emit; discriminate |].
    apply tidy_sequence. intros r Hr.
    apply list_elem_of_fmap in Hr as (j & -> & Hj).
    apply elem_of_seq in Hj as [_ Hj]. cbn in Hj.
    destruct (lookup_lt_is_Some_2 (encnames st) j) as [name ->]; [lia |].
    destruct (lookup_lt_is_Some_2 (rvals st) j) as [v ->]; [lia |].
    apply tidy_andThen; [apply tidy_emit; discriminate | apply Henc].
  - subst p. split; [apply not_elem_of_nil | discriminate].
Qed.

Lemma encodeValue_tidy (fuel : nat) : forall rv, tidy (encodeValue fuel rv).
Proof.
  assert (Hthrow : forall p, p <> indexOutOfRange -> tidy (throw p)).
  { intros p Hp. split; [apply not_elem_of_nil | cbn; congruence]. }
  induction fuel as [| fuel IH]; intros rv.
  { split; [apply not_elem_of_nil | discriminate]. }
  cbn [encodeValue].
  destruct (TypeOf rv) as [rt |]; [| apply Hthrow; discriminate].
  destruct (builtin rt rv); [apply tidy_emit; discriminate |].
  destruct (getEncodeExt h rt) as [xfTag [xfFn |]].
  { destruct (xfFn rv) as [[bs |] [fnerr |]];
      try (apply Hthrow; discriminate); try (apply tidy_emit; discriminate).
    destruct (writeExt h); [| apply tidy_emit; discriminate].
    apply tidy_andThen; apply tidy_emit; discriminate. }
  destruct rv as [| t b | t n | t n | t f | t f | t s | t [elems |] | t a elems
                 | t [entries |] | t fields | t [elem |] | t [elem |] | t];
    try (apply tidy_emit; discriminate); try (apply Hthrow; discriminate);
    try apply IH.
  - destruct (decide (rt = byteSliceTyp)); [apply tidy_emit; discriminate |].
    apply tidy_andThen; [apply tidy_emit; discriminate |].
    destruct (length elems =? 0)%nat; [split; [apply not_elem_of_nil | discriminate] |].
    rewrite forRange_elems. apply tidy_sequence. intros r Hr.
    apply list_elem_of_fmap in Hr as (v & -> & _). apply IH.
  - destruct a; [| apply Hthrow; discriminate].
    destruct (ArrayElem rt); [apply IH | apply Hthrow; discriminate].
  - apply tidy_andThen; [apply tidy_emit; discriminate |].
    destruct (length entries =? 0)%nat; [split; [apply not_elem_of_nil | discriminate] |].
    destruct (reflect.Key rt); [| apply Hthrow; discriminate].
    apply tidy_sequence. intros r Hr.
    apply list_elem_of_fmap in Hr as (kv & -> & _).
    apply tidy_andThen; [| apply IH].
    destruct (bool_decide _); [apply tidy_emit; discriminate | apply IH].
  - apply tidy_encStruct. exact IH.
Qed.

Lemma encode_tidy (fuel : nat) (iv : iface) : tidy (encode fuel iv).
Proof.
  destruct iv; cbn [encode];
    try (apply tidy_emit; discriminate); try apply encodeValue_tidy;
    destruct v; cbn [deref];
    try (apply tidy_emit; discriminate);
    (split; [apply not_elem_of_nil | discriminate]).
Qed.

(** [Encode] flushes exactly when the encoding went through, and then
    once, as its last call: a run that ends in a panic (the error [Encode]
    returns) has not flushed, so the caller's byte slice or writer has not
    been handed a partial value by the flush. *)
Theorem Encode_flushes_iff_returned (fuel : nat) (iv : iface) :
  match (Encode fuel iv).2 with
  | Returned => exists evs, (Encode fuel iv).1 = evs ++ [flush] /\ (flush ∉ evs)
  | _ => flush ∉ (Encode fuel iv).1
  end.
Proof.
  destruct (encode_tidy fuel iv) as [Hfl _]. unfold Encode, andThen.
  destruct (encode fuel iv) as [evs o]. cbn in *.
  destruct o; cbn; [| exact Hfl | exact Hfl]. exists evs. auto.
Qed.

(** The index expressions of [encodeValue] and [encStruct] ([rv.Index(j)],
    [rvals[newlen]], [encnames[newlen]], [encnames[j]], [rvals[j]]) are
    always within range: no [Encode] ends on an index out of range,
    whatever the value, the field descriptors and the registered
    extensions. *)
Theorem Encode_index_in_range (fuel : nat) (iv : iface) :
  (Encode fuel iv).2 <> Panicked indexOutOfRange.
Proof.
  destruct (encode_tidy fuel iv) as [_ Hp]. unfold Encode, andThen.
  destruct (encode fuel iv) as [evs o]. cbn in *.
  destruct o; cbn; [discriminate | exact Hp | discriminate].
Qed.

End engine.

(** The fast path consults neither the handle nor the wire format's hook:
    for a scalar value the calls [encode] makes are the same under every
    configuration, so an extension registered for a scalar type is used
    on the generic path only. *)
Theorem fast_path_skips_registry {float32 float64 : Type}
    (widen : float32 -> float64) (narrow : float64 -> float32)
    (is_zero : float64 -> bool) (h1 h2 : encodeHandleI)
    (builtin1 builtin2 : reflect.Type_ -> Value -> bool)
    (fields1 fields2 : reflect.Type_ -> list structFieldInfo)
    (fuel : nat) (iv : iface) :
  isScalar iv = true ->
  encode widen narrow is_zero h1 builtin1 fields1 fuel iv
  = encode widen narrow is_zero h2 builtin2 fields2 fuel iv.
Proof.
  intros Hs. destruct iv; try discriminate Hs; reflexivity.
Qed.

End Engine.

(* ===================================================================== *)
(** * The engine at work                                                  *)
(* ===================================================================== *)

Module Sample.
Import Engine.

(** ** A configuration to run the engine on *)

(** Floats holding small integers, which both formats represent exactly:
    widening and narrowing keep the integer. *)
Definition sample_widen (f : Z) : Z := f.
Definition sample_narrow (f : Z) : Z := f.
Definition sample_is_zero (f : Z) : bool := (f =? 0)%Z.

(** A user type with an extension: a struct holding seconds since the
    epoch, written as the timestamp payload; seconds before the epoch are
    refused. *)
Definition stampT : reflect.Type_ :=
  reflect.Defined "Stamp" (reflect.Literal reflect.Struct "Stamp").

Definition stampFn : extFn (float32 := Z) (float64 := Z) :=
  fun rv =>
    match rv with
    | StructV _ [IntV _ secs] =>
        if (secs <? 0)%Z then (None, Some "before the epoch"%string)
        else (Some (TimeCodec.encodeTime
                      {| TimeCodec.Unix := secs; TimeCodec.Nanosecond := 0;
                         TimeCodec.Loc := TimeCodec.UTC;
                         TimeCodec.ZoneOffset := 0 |}), None)
    | _ => (None, None)
    end.

(** The handle: the registry after registering [stampFn] under tag 1,
    with the linear scan below four entries. *)
Definition sample_lookup (rt : reflect.Type_) : byte * option extFn :=
  match Registry.addEncodeExt map_to_list stampT 1%Z (Some stampFn)
          Registry.zeroHandle with
  | Some o => Registry.getEncodeExt 4 rt o
  | None => (0%Z, None)
  end.

Definition sample_handle (asExt : bool) : encodeHandleI :=
  {| getEncodeExt := sample_lookup; writeExt := asExt |}.

(** A wire format without built-in shapes of its own. *)
Definition sample_builtin (rt : reflect.Type_) (rv : Value (float32 := Z) (float64 := Z))
  : bool := false.

(** A struct type with four fields, and its descriptors: the third one is
    reached by an index path through the embedded struct. *)
Definition personT : reflect.Type_ :=
  reflect.Defined "Person" (reflect.Literal reflect.Struct "Person").

Definition sample_fields (rt : reflect.Type_) : list structFieldInfo :=
  if decide (rt = personT) then
    [ {| encName := "Name"; is_ := []; i := 0; omitEmpty := false |};
      {| encName := "Age"; is_ := []; i := 1; omitEmpty := true |};
      {| encName := "City"; is_ := [2; 0]%Z; i := -1; omitEmpty := true |};
      {| encName := "Tags"; is_ := []; i := 3; omitEmpty := true |} ]
  else [].

Definition sample_encodeValue (asExt : bool) :=
  encodeValue sample_widen sample_narrow sample_is_zero (sample_handle asExt)
    sample_builtin sample_fields.


Definition sample_Encode (asExt : bool) :=
  Encode sample_widen sample_narrow sample_is_zero (sample_handle asExt)
    sample_builtin sample_fields.

(** A person with an empty name (no flag: written), age 0 (flag:
    dropped), a city reached through the embedded struct (flag, not
    empty: written) and nil tags (flag: dropped). *)
Definition sample_person : Value (float32 := Z) (float64 := Z) :=
  StructV personT
    [ StringV (reflect.Predeclared reflect.String) "";
      IntV (reflect.Predeclared reflect.Int) 0%Z;
      StructV (reflect.Literal reflect.Struct "Addr")
        [StringV (reflect.Predeclared reflect.String) "Oslo"];
      SliceV (reflect.SliceOf (reflect.Predeclared reflect.String)) None ].

(** A map keyed by a defined string type. *)
Definition myStrT : reflect.Type_ :=
  reflect.Defined "MyStr" (reflect.Predeclared reflect.String).

Definition sample_map : Value (float32 := Z) (float64 := Z) :=
  MapV (reflect.MapOf myStrT (reflect.Predeclared reflect.Int))
    (Some [(StringV myStrT "a", IntV (reflect.Predeclared reflect.Int) 1%Z)]).

(** An extension registered for [int] itself: the generic path uses it,
    the fast path writes the integer. *)
Definition int_handle : encodeHandleI (float32 := Z) (float64 := Z) :=
  {| getEncodeExt := fun rt =>
       if decide (rt = reflect.Predeclared reflect.Int)
       then (9%Z, Some (fun _ => (Some [42%Z], None)))
       else (0%Z, None);
     writeExt := true |}.

(** ** The theorems at work on the configuration *)


(** The registered [stampFn] on a stamp five seconds after the epoch,
    with extensions written as tagged blobs. *)
Lemma extension_override_witness :
  sample_encodeValue true 1 (StructV stampT [IntV (reflect.Predeclared reflect.Int64) 5%Z])
  = ([encodeExtPreamble 1%Z 4%Z; writeb [0; 0; 0; 5]%Z], Returned).
Proof.
  apply (proj1 (proj2 (proj2
           (extension_override sample_widen sample_narrow sample_is_zero
              (sample_handle true) sample_builtin sample_fields 0
              (StructV stampT [IntV (reflect.Predeclared reflect.Int64) 5%Z])
              stampT 1%Z stampFn eq_refl eq_refl eq_refl)))
         [0; 0; 0; 5]%Z); reflexivity.
Defined.

Lemma struct_omit_empty_witness :
  encStruct sample_widen sample_is_zero sample_fields (sample_encodeValue true 1)
    personT sample_person
  = ([encodeMapPreamble 2%Z;
      encodeSymbol "Name"; encodeString c_UTF8 "";
      encodeSymbol "City"; encodeString c_UTF8 "Oslo"], Returned).
Proof.
  destruct (struct_omit_empty sample_widen sample_narrow sample_is_zero
              (sample_handle true) sample_builtin sample_fields 1
              personT sample_person _ eq_refl) as [Hrun _].
  etransitivity; [exact Hrun | reflexivity].
Defined.

Lemma map_keys_by_kind_witness :
  sample_encodeValue true 2 sample_map
  = ([encodeMapPreamble 1%Z; encodeSymbol "a"; encodeInt 1%Z], Returned).
Proof.
  etransitivity.
  - apply (map_keys_by_kind sample_widen sample_narrow sample_is_zero
             (sample_handle true) sample_builtin sample_fields 1
             (reflect.MapOf myStrT (reflect.Predeclared reflect.Int)) myStrT).
    + split; reflexivity.
    + reflexivity.
  - reflexivity.
Defined.

(** C9 as stated fails on that map: its key type is not [string] but a
    defined type of kind String, and the key is written as a symbol, not
    by the generic recursion (which writes a plain string for it). *)
Lemma map_named_string_key_counterexample :
  let key := StringV myStrT "a" in
  let val := IntV (reflect.Predeclared reflect.Int) 1%Z in
  myStrT <> reflect.Predeclared reflect.String
  /\ sample_encodeValue true 1 key = ([encodeString c_UTF8 "a"], Returned)
  /\ sample_encodeValue true 2 sample_map
     = ([encodeMapPreamble 1%Z; encodeSymbol "a"; encodeInt 1%Z], Returned)
  /\ sample_encodeValue true 2 sample_map
     <> andThen (emit (encodeMapPreamble 1%Z))
          (andThen (sample_encodeValue true 1 key) (sample_encodeValue true 1 val)).
Proof.
  cbv zeta. split; [discriminate |]. split; [reflexivity |]. split; [reflexivity |].
  intros Habs. vm_compute in Habs. discriminate Habs.
Qed.

(** A nil map and a nil pointer to a struct, handed to [Encode]. *)
Lemma nil_values_encode_nil_witness :
  sample_Encode true 1
    (I_other (MapV (reflect.MapOf myStrT (reflect.Predeclared reflect.Int)) None))
  = ([encodeNil; flush], Returned)
  /\ sample_Encode true 1 (I_other (PtrV (reflect.PtrTo personT) None))
     = ([encodeNil; flush], Returned).
Proof.
  split.
  - apply (nil_values_encode_nil sample_widen sample_narrow sample_is_zero
             (sample_handle true) sample_builtin sample_fields 0
             (MapV (reflect.MapOf myStrT (reflect.Predeclared reflect.Int)) None));
      [reflexivity | split; reflexivity].
  - apply (nil_values_encode_nil sample_widen sample_narrow sample_is_zero
             (sample_handle true) sample_builtin sample_fields 0
             (PtrV (reflect.PtrTo personT) None));
      [reflexivity | split; reflexivity].
Defined.

(** The person is three levels deep; fuel 3 is enough. *)
Lemma sample_descriptors_ok : descriptors_ok sample_fields.
Proof.
  intros rt si Hin. unfold sample_fields in Hin.
  destruct (decide (rt = personT)); [| inversion Hin].
  repeat (apply elem_of_cons in Hin as [-> | Hin]);
    try (left; cbn; lia); try (right; discriminate); inversion Hin.
Qed.

Lemma encodeValue_enough_fuel_witness :
  stops (sample_encodeValue true 3 sample_person).
Proof.
  apply (encodeValue_enough_fuel sample_widen sample_narrow sample_is_zero
           (sample_handle true) sample_builtin sample_fields 3
           sample_descriptors_ok sample_person).
  vm_compute. lia.
Defined.

(** A defined type over [[]byte] goes element by element. *)
Lemma byte_slice_by_exact_type_witness :
  let u8 := reflect.Predeclared reflect.Uint8 in
  sample_encodeValue true 2
    (SliceV (reflect.Defined "Bytes" byteSliceTyp) (Some [UintV u8 1%Z; UintV u8 2%Z]))
  = ([encodeArrayPreamble 2%Z; encodeUint 1%Z; encodeUint 2%Z], Returned)
  /\ sample_encodeValue true 2 (SliceV byteSliceTyp (Some [UintV u8 1%Z; UintV u8 2%Z]))
     = ([encodeStringBytes c_RAW [1; 2]%Z], Returned).
Proof.
  intros u8.
  destruct (byte_slice_by_exact_type sample_widen sample_narrow sample_is_zero
              (sample_handle true) sample_builtin sample_fields 1
              (reflect.Defined "Bytes" byteSliceTyp) [UintV u8 1%Z; UintV u8 2%Z])
    as (_ & Hother & Hne); [split; reflexivity |].
  split; [| reflexivity].
  etransitivity; [exact (Hother (Hne "Bytes"%string)) | reflexivity].
Defined.

(** The fast path against the generic path under [int_handle]. *)
Lemma fast_path_skips_registry_witness :
  encode sample_widen sample_narrow sample_is_zero int_handle sample_builtin
    sample_fields 1 (I_int 5%Z)
  = ([encodeInt 5%Z], Returned)
  /\ encodeValue sample_widen sample_narrow sample_is_zero int_handle sample_builtin
       sample_fields 1 (ValueOf (I_int 5%Z))
     = ([encodeExtPreamble 9%Z 1%Z; writeb [42%Z]], Returned).
Proof.
  split; [| reflexivity].
  rewrite (fast_path_skips_registry sample_widen sample_narrow sample_is_zero
             int_handle (sample_handle true) sample_builtin sample_builtin
             sample_fields sample_fields 1 (I_int 5%Z) eq_refl).
  reflexivity.
Defined.

(** The sample person handed to [Encode]: a map of two entries, then
    the flush. *)
Lemma Encode_well_formed_witness :
  exists evs' : list (event (float32 := Z) (float64 := Z)),
    [encodeMapPreamble 2%Z;
     encodeSymbol "Name"; encodeString c_UTF8 "";
     encodeSymbol "City"; encodeString c_UTF8 "Oslo"; flush]
    = evs' ++ [flush]
    /\ values 1 evs'.
Proof.
  apply (Encode_well_formed sample_widen sample_narrow sample_is_zero
           (sample_handle true) sample_builtin sample_fields 3
           (I_Value sample_person)).
  reflexivity.
Defined.


(** The sample person against the map of its two kept fields. *)
Lemma struct_encodes_as_map_witness :
  let str := reflect.Predeclared reflect.String in
  sample_encodeValue true 3 sample_person
  = sample_encodeValue true 3
      (MapV (reflect.MapOf str str)
         (Some [(StringV str "Name", StringV str "");
                (StringV str "City", StringV str "Oslo")])).
Proof.
  intros str.
  apply (struct_encodes_as_map sample_widen sample_narrow sample_is_zero
           (sample_handle true) sample_builtin sample_fields 2
           personT (reflect.MapOf str str) str
           [ StringV str ""; IntV (reflect.Predeclared reflect.Int) 0%Z;
             StructV (reflect.Literal reflect.Struct "Addr") [StringV str "Oslo"];
             SliceV (reflect.SliceOf str) None ]
           (default [] (field_pairs sample_person (sample_fields personT)))).
  - split; reflexivity.
  - split; reflexivity.
  - reflexivity.
  - reflexivity.
  - reflexivity.
Defined.

End Sample.
